(** * util/odb_compatibility.h: the std::auto_ptr compatibility header

    The header has two parts, and so has this development:

    - [Preprocessor]: the conditional-compilation logic of the header
      (include guard, the two pre-set feature macros, the MSVC pragma
      region and the [#if] that guards the [namespace std] block), as a
      function from the macro environment in force when the header is
      included to the environment, pragmas and declarations it leaves.
    - [AutoPtr]: the class template [std::auto_ptr<T>] and its proxy
      [std::auto_ptr_ref<T>], as operations of a state-and-failure monad
      over a store of handle objects and a heap of allocated instances;
      failure stands for undefined behaviour. Here [delete] only gives
      storage back, which is what it does for an element type whose
      destructor leaves the store alone.
    - [AutoPtrT]: the members that call [delete], with the destructor of
      the element type as a parameter, and client programs over all
      members; [operator=] from a handle, where the destructor runs
      before the source is read, is only there. *)

From stdpp Require Import gmap strings list fin_maps.

Open Scope Z_scope.

(** ** The preprocessor logic *)

Module Preprocessor.

(** The replacement list of an object-like macro: nothing
    ([#define M]), one decimal integer literal ([#define M 201703L]), or
    any other token sequence, of which the header needs to know only what
    the preprocessor makes of it as an operand of [#if]: an integer, or
    nothing when it does not parse there. *)
Inductive macro_body : Type :=
| Empty
| IntLit (n : N)
| Tokens (value : option Z).

#[global] Instance macro_body_eq_dec : EqDecision macro_body.
Proof. solve_decision. Defined.

Abbreviation macro_env := (gmap string macro_body).

(** [#pragma warning(...)] directives of the MSVC region. *)
Inductive pragma : Type :=
| warning_push
| warning_disable (n : Z)
| warning_pop.

(** What the header has produced so far: the macro environment, the
    pragmas issued (in order), whether the [namespace std] block with
    [auto_ptr_ref] and [auto_ptr] was passed on to the compiler, and the
    macros a [#define] has redefined with a different replacement list
    (each draws a diagnostic, an error in a build that treats it so). *)
Record tu := TU {
  macros : macro_env;
  pragmas : list pragma;
  shim_defined : bool;
  redefined : list string
}.

Definition defined (m : string) (e : macro_env) : bool :=
  bool_decide (is_Some (e !! m)).

(** Does [#define m b] meet a definition of [m] with another
    replacement list? *)
Definition redefines (m : string) (b : macro_body) (e : macro_env) : bool :=
  match e !! m with
  | Some b' => negb (bool_decide (b' = b))
  | None => false
  end.

(** [#define m body] *)
Definition define (m : string) (b : macro_body) (u : tu) : tu :=
  TU (<[m := b]> (macros u)) (pragmas u) (shim_defined u)
     (redefined u ++ if redefines m b (macros u) then [m] else []).

(** [#ifndef m] / [#define m 1] / [#endif] *)
Definition define_if_absent (m : string) (u : tu) : tu :=
  if defined m (macros u) then u else define m (IntLit 1) u.

Definition emit_pragma (p : pragma) (u : tu) : tu :=
  TU (macros u) (pragmas u ++ [p]) (shim_defined u) (redefined u).

(** An identifier inside an [#if] expression: 0 when it is not a
    macro; an integer literal is read in the preprocessor's widest
    integer type, 64 bits, a larger one wrapping around; an empty
    replacement leaves no operand, the directive is ill-formed. *)
Definition if_operand (m : string) (e : macro_env) : option Z :=
  match e !! m with
  | None => Some 0
  | Some (IntLit n) => Some (Z.of_N n mod 2 ^ 64)
  | Some (Tokens value) => value
  | Some Empty => None
  end.

(** Line 30:
    [#if defined(__GNUC__) && (__cplusplus >= 201703L)
         && !defined(_GLIBCXX_USE_DEPRECATED)] *)
Definition activation_if (e : macro_env) : option bool :=
  v ← if_operand "__cplusplus" e;
  Some (defined "__GNUC__" e
        && bool_decide (201703 <= v)
        && negb (defined "_GLIBCXX_USE_DEPRECATED" e)).

Section Header.

(** [#include <memory>] is the toolchain's header, not this
    repository's: whatever it does to the macro environment. *)
Variable memory_header : macro_env → macro_env.

Definition include_memory (u : tu) : tu :=
  TU (memory_header (macros u)) (pragmas u) (shim_defined u) (redefined u).

(** Lines 22-26. *)
Definition msvc_region_open (u : tu) : tu :=
  if defined "_MSC_VER" (macros u) then
    emit_pragma (warning_disable 4996)
      (emit_pragma warning_push
        (define "_SILENCE_CXX17_AUTO_PTR_DEPRECATION_WARNING" Empty u))
  else u.

(** Lines 127-129. *)
Definition msvc_region_close (u : tu) : tu :=
  if defined "_MSC_VER" (macros u) then emit_pragma warning_pop u else u.

(** Lines 30-124. *)
Definition shim_region (u : tu) : option tu :=
  b ← activation_if (macros u);
  Some (if b : bool then TU (macros u) (pragmas u) true (redefined u)
        else u).

(** The whole header, lines 7-131, run on the translation unit so
    far; [None] when line 30 is ill-formed. *)
Definition odb_compatibility_h (u : tu) : option tu :=
  if defined "ODB_COMPATIBILITY_H" (macros u) then Some u
  else
    let u := define "ODB_COMPATIBILITY_H" Empty u in
    let u := include_memory u in
    let u := define_if_absent "_GLIBCXX_USE_DEPRECATED" u in
    let u := define_if_absent "_LIBCPP_ENABLE_CXX17_REMOVED_AUTO_PTR" u in
    let u := msvc_region_open u in
    u ← shim_region u;
    Some (msvc_region_close u).

(** The header included in a translation unit that starts with the
    macro environment [e]: is the shim compiled in? *)
Definition shim_active (e : macro_env) : bool :=
  match odb_compatibility_h (TU e [] false []) with
  | Some u => shim_defined u
  | None => false
  end.

End Header.

(** The activation condition as the specification words it, on the
    environment the header is included in: GNU toolchain, C++17 or later,
    [_GLIBCXX_USE_DEPRECATED] not set. *)
Definition gnu_toolchain (e : macro_env) : bool := defined "__GNUC__" e.

Definition cxx17_or_later (e : macro_env) : bool :=
  match if_operand "__cplusplus" e with
  | Some v => bool_decide (201703 <= v)
  | None => false
  end.

Definition legacy_flag_set (e : macro_env) : bool :=
  defined "_GLIBCXX_USE_DEPRECATED" e.

Definition shim_wanted (e : macro_env) : bool :=
  gnu_toolchain e && cxx17_or_later e && negb (legacy_flag_set e).

(** g++ -std=c++17 with nothing else set. *)
Definition gcc_cxx17 : macro_env :=
  {[ "__GNUC__" := IntLit 13; "__cplusplus" := IntLit 201703 ]}.

End Preprocessor.


(** ** The class template std::auto_ptr *)

Module AutoPtr.

(** Addresses. A [loc] is the address of a heap instance (what [new]
    returned), a [hid] the address of a handle object, which is what
    [this] and [&other] are. [T*] is a nullable address: [None] is
    [nullptr]. The implicit conversion from a derived-class pointer to
    a base-class pointer keeps the address of the instance. *)
Abbreviation loc := positive.
Abbreviation hid := positive.
Abbreviation ptr := (option loc).

(** The store: the instances that are allocated, the [ptr_] member of
    every handle object whose lifetime has begun and not ended, and the
    log of the instances [delete] has deallocated, latest first. *)
Record state := State {
  heap : gset loc;
  handles : gmap hid ptr;
  freed : list loc
}.

(** Computations on the store; [None] is undefined behaviour. *)
Definition M (A : Type) : Type := state → option (A * state).

#[global] Instance M_ret : MRet M := λ A a σ, Some (a, σ).
#[global] Instance M_bind : MBind M := λ A B k m σ,
  match m σ with
  | Some (a, σ') => k a σ'
  | None => None
  end.

Definition undefined {A} : M A := λ _, None.

(** Reading and writing the member [ptr_] of the handle object at [h]. *)
Definition load (h : hid) : M ptr := λ σ,
  match handles σ !! h with
  | Some p => Some (p, σ)
  | None => None
  end.

Definition store (h : hid) (p : ptr) : M unit := λ σ,
  match handles σ !! h with
  | Some _ => Some ((), State (heap σ) (<[h := p]> (handles σ)) (freed σ))
  | None => None
  end.

(** The lifetime of the handle object at [h] begins, with [ptr_]
    initialised to [p], and ends. *)
Definition begin_lifetime (h : hid) (p : ptr) : M unit := λ σ,
  match handles σ !! h with
  | Some _ => None
  | None => Some ((), State (heap σ) (<[h := p]> (handles σ)) (freed σ))
  end.

Definition end_lifetime (h : hid) : M unit := λ σ,
  match handles σ !! h with
  | Some _ => Some ((), State (heap σ) (delete h (handles σ)) (freed σ))
  | None => None
  end.

(** [delete p] for an element type whose destructor leaves the store
    alone (it holds no handle and deletes nothing): nothing for a null
    pointer, deallocation of an allocated instance, undefined on
    anything else. Module [AutoPtrT] below has [delete] for an element
    type with a destructor of its own, and the members that reach it. *)
Definition delete_ (p : ptr) : M unit := λ σ,
  match p with
  | None => Some ((), σ)
  | Some l =>
      if decide (l ∈ heap σ)
      then Some ((), State (heap σ ∖ {[l]}) (handles σ) (l :: freed σ))
      else None
  end.

(** [*p] for a non-null [p]: the instance at [l], which has to be
    allocated. *)
Definition lvalue (l : loc) : M loc := λ σ,
  if decide (l ∈ heap σ) then Some (l, σ) else None.

Section Templates.

(** Element types, and which pointer conversions [T* → U*] are
    implicit (derived to base, and every type to itself). *)
Context {cls : Type} (convertible : cls → cls → Prop).

(** Lines 35-39. *)
Record auto_ptr_ref (T : cls) := AutoPtrRef { ref_ptr_ : ptr }.

(** An object of type [auto_ptr<T>], by its address; the member
    [ptr_] (line 120) is in the store. *)
Record auto_ptr (T : cls) := AutoPtr { addr : hid }.

#[global] Arguments AutoPtrRef T ref_ptr_ : assert.
#[global] Arguments ref_ptr_ {T} _ : assert.
#[global] Arguments AutoPtr T addr : assert.
#[global] Arguments addr {T} _ : assert.

(** Lines 106-110. *)
Definition release {T} (this : auto_ptr T) : M ptr :=
  tmp ← load (addr this);
  store (addr this) None;;
  mret tmp.

(** Line 46. *)
Definition auto_ptr_ctor {T} (this : auto_ptr T) (ptr : ptr) : M unit :=
  begin_lifetime (addr this) ptr.

(** Line 48. *)
Definition auto_ptr_copy {T} (this other : auto_ptr T) : M unit :=
  p ← release other;
  begin_lifetime (addr this) p.

(** Lines 50-51. *)
Definition auto_ptr_copy_U {T U} (conv : convertible U T)
    (this : auto_ptr T) (other : auto_ptr U) : M unit :=
  p ← release other;
  begin_lifetime (addr this) p.

(** Line 53. *)
Definition auto_ptr_from_ref {T} (this : auto_ptr T)
    (ref : auto_ptr_ref T) : M unit :=
  begin_lifetime (addr this) (ref_ptr_ ref).

(** Lines 55-70, [operator=] from a handle, are in [AutoPtrT]. *)

(** Lines 72-78. *)
Definition operator_assign_ref {T} (this : auto_ptr T)
    (ref : auto_ptr_ref T) : M (auto_ptr T) :=
  old ← load (addr this);
  (if decide (ref_ptr_ ref ≠ old) then
     delete_ old;;
     store (addr this) (ref_ptr_ ref)
   else mret ());;
  mret this.

(** Lines 80-83. *)
Definition operator_auto_ptr_ref {T} (U : cls) (conv : convertible T U)
    (this : auto_ptr T) : M (auto_ptr_ref U) :=
  p ← release this;
  mret (AutoPtrRef U p).

(** Lines 85-88; [result] is the object returned. *)
Definition operator_auto_ptr {T} (U : cls) (conv : convertible T U)
    (this : auto_ptr T) (result : auto_ptr U) : M unit :=
  p ← release this;
  auto_ptr_ctor result p.

(** Lines 90-92. *)
Definition dtor {T} (this : auto_ptr T) : M unit :=
  p ← load (addr this);
  delete_ p;;
  end_lifetime (addr this).

(** Lines 94-96: a reference to the instance, which has to exist. *)
Definition operator_deref {T} (this : auto_ptr T) : M loc :=
  p ← load (addr this);
  match p with
  | Some l => lvalue l
  | None => undefined
  end.

(** Lines 98-100. *)
Definition operator_arrow {T} (this : auto_ptr T) : M ptr :=
  load (addr this).

(** Lines 102-104. *)
Definition get {T} (this : auto_ptr T) : M ptr :=
  load (addr this).

(** Lines 112-117. *)
Definition reset {T} (this : auto_ptr T) (ptr : ptr) : M unit :=
  old ← load (addr this);
  if decide (ptr ≠ old) then
    delete_ old;;
    store (addr this) ptr
  else mret ().

End Templates.

(** *** Ownership *)

(** A handle owns the instance its [ptr_] points to. At most one handle
    owns a given instance: *)
Definition single_owner (hs : gmap hid ptr) : Prop :=
  ∀ h1 h2 l, hs !! h1 = Some (Some l) → hs !! h2 = Some (Some l) → h1 = h2.

(** [p] is null, or no handle of [hs] owns what it points to. *)
Definition unowned (p : ptr) (hs : gmap hid ptr) : Prop :=
  p = None ∨ map_Forall (λ _ q, q ≠ p) hs.

#[global] Instance unowned_dec p hs : Decision (unowned p hs).
Proof. unfold unowned. apply _. Defined.


(** The heap and the deallocation log are the same in both stores. *)
Definition same_heap (σ σ' : state) : Prop :=
  heap σ' = heap σ ∧ freed σ' = freed σ.

End AutoPtr.

(** ** A small client

    Two element types, a base class and one derived from it, four
    handle objects and a few stores to run the members on. *)

Module Client.
Import AutoPtr.

Inductive klass : Type := Base | Derived.

(** [T*] converts implicitly to [U*]. *)
Definition derives (T U : klass) : Prop :=
  T = U ∨ (T = Derived ∧ U = Base).

Definition a : auto_ptr Base := AutoPtr Base 1.
Definition b : auto_ptr Base := AutoPtr Base 2.
Definition d : auto_ptr Derived := AutoPtr Derived 3.
Definition c : auto_ptr Base := AutoPtr Base 4.

Definition derived_to_base : derives Derived Base :=
  or_intror (conj eq_refl eq_refl).

(** One instance allocated, no handle yet. *)
Definition one_instance : state := State {[10%positive]} ∅ [].

(** [a] owns instance 10 and [b] instance 20; [c] and [d] are not
    constructed. *)
Definition a_and_b : state :=
  State {[10%positive; 20%positive]}
        {[1%positive := Some 10%positive; 2%positive := Some 20%positive]} [].

(** [d] owns instance 30; [b] is not constructed. *)
Definition only_d : state :=
  State {[30%positive]} {[3%positive := Some 30%positive]} [].

(** [a] is null. *)
Definition a_null : state :=
  State {[20%positive]}
        {[1%positive := None; 2%positive := Some 20%positive]} [].

End Client.

(** ** What the header leaves behind *)

Module HeaderView.
Import Preprocessor.

(** The macro environment lines 13 and below start from, in a
    translation unit [u] that has not seen the header yet: the guard
    defined (line 8), then whatever [<memory>] does (line 10). *)
Definition after_memory (memory_header : macro_env → macro_env) (u : tu)
    : macro_env :=
  memory_header (<["ODB_COMPATIBILITY_H" := Empty]> (macros u)).

(** The translation unit when line 30 is reached. *)
Definition at_line_30 (memory_header : macro_env → macro_env) (u : tu) : tu :=
  msvc_region_open
    (define_if_absent "_LIBCPP_ENABLE_CXX17_REMOVED_AUTO_PTR"
      (define_if_absent "_GLIBCXX_USE_DEPRECATED"
        (include_memory memory_header
          (define "ODB_COMPATIBILITY_H" Empty u)))).

(** The replacement list of [m] once [#ifndef m / #define m 1 / #endif]
    has run on [e]. *)
Definition flag_body (m : string) (e : macro_env) : macro_body :=
  default (IntLit 1) (e !! m).

(** The pragmas of the two MSVC regions together. *)
Definition msvc_pragmas (e : macro_env) : list pragma :=
  if defined "_MSC_VER" e
  then [warning_push; warning_disable 4996; warning_pop]
  else [].

(** The one [#define] of the header that is not guarded by an
    [#ifndef], line 23, met by a macro that is already defined otherwise. *)
Definition msvc_redefinitions (e : macro_env) : list string :=
  if defined "_MSC_VER" e
     && redefines "_SILENCE_CXX17_AUTO_PTR_DEPRECATION_WARNING" Empty e
  then ["_SILENCE_CXX17_AUTO_PTR_DEPRECATION_WARNING"]
  else [].

(** A Microsoft compiler in C++17 mode, and a translation unit that has
    already issued a pragma of its own. *)
Definition msvc_cxx17 : macro_env :=
  {[ "_MSC_VER" := IntLit 1930; "__cplusplus" := IntLit 201703 ]}.

Definition msvc_unit : tu := TU msvc_cxx17 [warning_disable 4100] false [].

(** A [<memory>] that sets the libstdc++ flag to 0. *)
Definition memory_clears_flag (e : macro_env) : macro_env :=
  <["_GLIBCXX_USE_DEPRECATED" := IntLit 0]> e.

(** A Microsoft build with /D_SILENCE_CXX17_AUTO_PTR_DEPRECATION_WARNING,
    which defines the macro as 1. *)
Definition silenced_unit : tu :=
  TU (<["_SILENCE_CXX17_AUTO_PTR_DEPRECATION_WARNING" := IntLit 1]>
        msvc_cxx17) [] false [].

End HeaderView.

(** ** The contract a client keeps *)

Module Contract.
Import AutoPtr.

(** Every pointer a handle holds points to an allocated instance. *)
Definition owned_live (σ : state) : Prop :=
  ∀ h l, handles σ !! h = Some (Some l) → l ∈ heap σ.

Definition well_formed (σ : state) : Prop :=
  single_owner (handles σ) ∧ owned_live σ.

(** [p] is null or points to an allocated instance. *)
Definition live_or_null (p : ptr) (σ : state) : Prop :=
  match p with
  | Some l => l ∈ heap σ
  | None => True
  end.

#[global] Instance live_or_null_dec p σ : Decision (live_or_null p σ).
Proof. destruct p; simpl; apply _. Defined.

(** The handle object at [h] is within, respectively before, its
    lifetime. *)
Definition constructed (h : hid) (σ : state) : Prop :=
  is_Some (handles σ !! h).

Definition unconstructed (h : hid) (σ : state) : Prop :=
  handles σ !! h = None.

End Contract.

(** ** More stores and a second client *)

Module Scenarios.
Import AutoPtr Client.

Definition base_to_base : derives Base Base := or_introl eq_refl.


(** [a] holds instance 10, which is not allocated. *)
Definition dangling : state :=
  State ∅ {[1%positive := Some 10%positive]} [].

End Scenarios.

(** ** std::auto_ptr over an element type with a destructor

    [delete ptr_] runs the destructor of the instance before its storage
    is given back. The element type is the template's parameter, so what
    its destructor does to the store is a parameter here. The members
    that call [delete] are below; the others are those of [AutoPtr]. *)

Module AutoPtrT.
Import AutoPtr Contract.

(** The storage of the instance at [l] is given back. *)
Definition deallocate (l : loc) : M unit := λ σ,
  if decide (l ∈ heap σ)
  then Some ((), State (heap σ ∖ {[l]}) (handles σ) (l :: freed σ))
  else None.

Section ElementType.
Context {cls : Type} (convertible : cls → cls → Prop).

(** [destroy l] is the destructor of the instance at [l]: it may end
    the lifetime of handles that are members of the instance, which
    deletes what they hold, and do anything else to the store. *)
Variable destroy : loc → M unit.

(** [delete p]: nothing for a null pointer; for an allocated instance
    its destructor, then the deallocation; undefined on anything else. *)
Definition delete_ (p : ptr) : M unit :=
  match p with
  | None => mret ()
  | Some l => lvalue l;; destroy l;; deallocate l
  end.

(** Lines 55-61. *)
Definition operator_assign {T : cls} (this other : auto_ptr T)
    : M (auto_ptr T) :=
  (if decide (addr this ≠ addr other) then
     old ← load (addr this);
     delete_ old;;
     p ← release other;
     store (addr this) p
   else mret ());;
  mret this.

(** Lines 63-70. Line 65 compares [this] with [&other]: pointers to
    [auto_ptr<T>] and to [auto_ptr<U>], which can be compared only when
    the two are the same type, so the member exists for [U = T] alone. *)
Definition operator_assign_U {T U : cls} (same : U = T)
    (this : auto_ptr T) (other : auto_ptr U) : M (auto_ptr T) :=
  (if decide (addr this ≠ addr other) then
     old ← load (addr this);
     delete_ old;;
     p ← release other;
     store (addr this) p
   else mret ());;
  mret this.

(** Lines 72-78. *)
Definition operator_assign_ref {T : cls} (this : auto_ptr T)
    (ref : auto_ptr_ref T) : M (auto_ptr T) :=
  old ← load (addr this);
  (if decide (ref_ptr_ ref ≠ old) then
     delete_ old;;
     store (addr this) (ref_ptr_ ref)
   else mret ());;
  mret this.

(** Lines 90-92. *)
Definition dtor {T : cls} (this : auto_ptr T) : M unit :=
  p ← load (addr this);
  delete_ p;;
  end_lifetime (addr this).

(** Lines 112-117. *)
Definition reset {T : cls} (this : auto_ptr T) (ptr : ptr) : M unit :=
  old ← load (addr this);
  if decide (ptr ≠ old) then
    delete_ old;;
    store (addr this) ptr
  else mret ().

(** *** Client programs

    A straight-line sequence of member calls, every member of the class
    among them; what a call returns is dropped. *)
Inductive op : Type :=
| op_ctor {T : cls} (this : auto_ptr T) (ptr : ptr)
| op_copy {T : cls} (this other : auto_ptr T)
| op_copy_U {T U : cls} (conv : convertible U T)
    (this : auto_ptr T) (other : auto_ptr U)
| op_from_ref {T : cls} (this : auto_ptr T) (ref : auto_ptr_ref T)
| op_assign {T : cls} (this other : auto_ptr T)
| op_assign_U {T U : cls} (same : U = T)
    (this : auto_ptr T) (other : auto_ptr U)
| op_assign_ref {T : cls} (this : auto_ptr T) (ref : auto_ptr_ref T)
| op_to_ref {T : cls} (U : cls) (conv : convertible T U) (this : auto_ptr T)
| op_to_auto_ptr {T : cls} (U : cls) (conv : convertible T U)
    (this : auto_ptr T) (result : auto_ptr U)
| op_dtor {T : cls} (this : auto_ptr T)
| op_deref {T : cls} (this : auto_ptr T)
| op_arrow {T : cls} (this : auto_ptr T)
| op_get {T : cls} (this : auto_ptr T)
| op_release {T : cls} (this : auto_ptr T)
| op_reset {T : cls} (this : auto_ptr T) (ptr : ptr).

Definition exec (o : op) : M unit :=
  match o with
  | op_ctor this p => auto_ptr_ctor this p
  | op_copy this other => auto_ptr_copy this other
  | op_copy_U conv this other => auto_ptr_copy_U convertible conv this other
  | op_from_ref this ref => auto_ptr_from_ref this ref
  | op_assign this other => operator_assign this other;; mret ()
  | op_assign_U same this other => operator_assign_U same this other;; mret ()
  | op_assign_ref this ref => operator_assign_ref this ref;; mret ()
  | op_to_ref U conv this =>
      operator_auto_ptr_ref convertible U conv this;; mret ()
  | op_to_auto_ptr U conv this result =>
      operator_auto_ptr convertible U conv this result
  | op_dtor this => dtor this
  | op_deref this => operator_deref this;; mret ()
  | op_arrow this => operator_arrow this;; mret ()
  | op_get this => get this;; mret ()
  | op_release this => release this;; mret ()
  | op_reset this p => reset this p
  end.

Fixpoint run (ops : list op) : M unit :=
  match ops with
  | [] => mret ()
  | o :: ops => exec o;; run ops
  end.

(** A raw pointer or a proxy handed to a handle is one that no handle
    owns; [reset] and assignment from a proxy may also be given what
    the handle itself owns. *)
Definition admissible (o : op) (σ : state) : Prop :=
  match o with
  | op_ctor _ p => unowned p (handles σ)
  | op_from_ref _ ref => unowned (ref_ptr_ ref) (handles σ)
  | op_assign_ref this ref =>
      unowned (ref_ptr_ ref) (delete (addr this) (handles σ))
  | op_reset this p => unowned p (delete (addr this) (handles σ))
  | _ => True
  end.

#[global] Instance admissible_dec o σ : Decision (admissible o σ).
Proof. destruct o; simpl; apply _. Defined.

Fixpoint admissible_run (ops : list op) (σ : state) : Prop :=
  match ops with
  | [] => True
  | o :: ops =>
      admissible o σ ∧
      match exec o σ with
      | Some (_, σ') => admissible_run ops σ'
      | None => True
      end
  end.

#[global] Instance admissible_run_dec ops σ : Decision (admissible_run ops σ).
Proof.
  revert σ. induction ops as [|o ops IH]; intros σ; simpl; [apply _|].
  destruct (exec o σ) as [[_ σ']|]; apply _.
Defined.

(** The handle a transfer to another handle or to a proxy takes the
    instance from. *)
Definition transfer_source (o : op) : option hid :=
  match o with
  | op_copy _ other => Some (addr other)
  | op_copy_U _ _ other => Some (addr other)
  | op_assign this other =>
      if decide (addr this ≠ addr other) then Some (addr other) else None
  | op_assign_U _ this other =>
      if decide (addr this ≠ addr other) then Some (addr other) else None
  | op_to_ref _ _ this => Some (addr this)
  | op_to_auto_ptr _ _ this _ => Some (addr this)
  | _ => None
  end.

(** An assignment of a handle to itself. *)
Definition self_assignment (o : op) : Prop :=
  match o with
  | op_assign this other => addr this = addr other
  | op_assign_U _ this other => addr this = addr other
  | _ => False
  end.

(** The handle holds an instance: it is constructed and not null. *)
Definition holds_instance (h : hid) (σ : state) : Prop :=
  match handles σ !! h with
  | Some (Some _) => True
  | _ => False
  end.

#[global] Instance holds_instance_dec h σ : Decision (holds_instance h σ).
Proof. unfold holds_instance. repeat case_match; apply _. Defined.

(** What the caller of a member owes: members are called on constructed
    handles, [operator*] on one that holds an instance, constructors on
    storage that holds no handle, and a raw pointer or proxy handed over
    points to an allocated instance that no handle (no other handle, for
    [reset] and assignment) owns, or is null. *)
Definition precondition (o : op) (σ : state) : Prop :=
  match o with
  | op_ctor this p =>
      unconstructed (addr this) σ ∧
      unowned p (handles σ) ∧ live_or_null p σ
  | op_copy this other =>
      unconstructed (addr this) σ ∧ constructed (addr other) σ
  | op_copy_U _ this other =>
      unconstructed (addr this) σ ∧ constructed (addr other) σ
  | op_from_ref this ref =>
      unconstructed (addr this) σ ∧
      unowned (ref_ptr_ ref) (handles σ) ∧ live_or_null (ref_ptr_ ref) σ
  | op_assign this other =>
      constructed (addr this) σ ∧ constructed (addr other) σ
  | op_assign_U _ this other =>
      constructed (addr this) σ ∧ constructed (addr other) σ
  | op_assign_ref this ref =>
      constructed (addr this) σ ∧
      unowned (ref_ptr_ ref) (delete (addr this) (handles σ)) ∧
      live_or_null (ref_ptr_ ref) σ
  | op_to_ref _ _ this => constructed (addr this) σ
  | op_to_auto_ptr _ _ this result =>
      constructed (addr this) σ ∧ unconstructed (addr result) σ
  | op_dtor this => constructed (addr this) σ
  | op_deref this => holds_instance (addr this) σ
  | op_arrow this => constructed (addr this) σ
  | op_get this => constructed (addr this) σ
  | op_release this => constructed (addr this) σ
  | op_reset this p =>
      constructed (addr this) σ ∧
      unowned p (delete (addr this) (handles σ)) ∧ live_or_null p σ
  end.

#[global] Instance precondition_dec o σ : Decision (precondition o σ).
Proof. destruct o; simpl; unfold constructed, unconstructed; apply _. Defined.

(** Every call of the sequence is made with its precondition, in the
    store the calls before it have left. *)
Fixpoint contract_run (ops : list op) (σ : state) : Prop :=
  match ops with
  | [] => True
  | o :: ops =>
      precondition o σ ∧
      match exec o σ with
      | Some (_, σ') => contract_run ops σ'
      | None => True
      end
  end.

#[global] Instance contract_run_dec ops σ : Decision (contract_run ops σ).
Proof.
  revert σ. induction ops as [|o ops IH]; intros σ; simpl; [apply _|].
  destruct (exec o σ) as [[_ σ']|]; apply _.
Defined.

End ElementType.

#[global] Arguments exec {cls convertible} destroy o _.
#[global] Arguments run {cls convertible} destroy ops _.
#[global] Arguments admissible {cls convertible} o σ : assert.
#[global] Arguments admissible_run {cls convertible} destroy ops σ : assert.
#[global] Arguments transfer_source {cls convertible} o : assert.
#[global] Arguments self_assignment {cls convertible} o : assert.
#[global] Arguments precondition {cls convertible} o σ : assert.
#[global] Arguments contract_run {cls convertible} destroy ops σ : assert.

(** A destructor that creates no handle and changes no handle's
    pointer; it may end the lifetime of handles. *)
Definition only_destroys (destroy : loc → M unit) : Prop :=
  ∀ l σ u σ', destroy l σ = Some (u, σ') → handles σ' ⊆ handles σ.

(** A destructor that leaves the store alone: the element type has no
    handle among its members and deletes nothing. *)
Definition inert (destroy : loc → M unit) : Prop :=
  ∀ l σ, destroy l σ = Some ((), σ).

End AutoPtrT.

(** ** Element types with and without handles *)

Module Lists.
Import AutoPtr AutoPtrT Client.

(** The destructor of an element type without members, such as int. *)
Definition no_members : loc → M unit := λ _, mret ().

(** Two instances allocated, no handle yet. *)
Definition two_instances : state :=
  State {[10%positive; 20%positive]} ∅ [].

(** Two handles constructed from the same raw pointer. *)
Definition shared_raw_pointer : list (op derives) :=
  [op_ctor derives a (Some 10%positive); op_ctor derives b (Some 10%positive)].

(** A handle assigned to itself. *)
Definition self_assignment_of_a : list (op derives) :=
  [op_ctor derives a (Some 10%positive); op_assign derives a a].

(** [a] takes 10, [b] takes 20, [b = a] frees 20, [*b], and [b]'s
    destructor frees 10. *)
Definition replace_and_destroy : list (op derives) :=
  [op_ctor derives a (Some 10%positive);
   op_ctor derives b (Some 20%positive);
   op_assign derives b a;
   op_deref derives b;
   op_dtor derives b].

(** [struct Node { std::auto_ptr<Node> next; };] with the member [next]
    of the node at [l] at the address after [l]. *)
Inductive list_class : Type := Node.

Definition same_class (T U : list_class) : Prop := T = U.

Definition next (l : loc) : auto_ptr Node := AutoPtr Node (l + 1)%positive.

(** [~Node()], which destroys the member [next], on lists of up to
    [depth] nodes. *)
Fixpoint node_dtor (depth : nat) (l : loc) : M unit :=
  match depth with
  | O => undefined
  | S depth => dtor (node_dtor depth) (next l)
  end.


Definition chain : state :=
  State {[10%positive; 20%positive; 30%positive]}
        {[1%positive := Some 10%positive;
          11%positive := Some 20%positive;
          21%positive := Some 30%positive;
          31%positive := None]} [].

(** Two local handles to two lists of one node each, and storage for a
    third handle. *)
Definition first : auto_ptr Node := AutoPtr Node 1.
Definition second : auto_ptr Node := AutoPtr Node 2.
Definition third : auto_ptr Node := AutoPtr Node 3.

Definition two_lists : state :=
  State {[10%positive; 20%positive]}
        {[1%positive := Some 10%positive;
          2%positive := Some 20%positive;
          11%positive := None;
          21%positive := None]} [].

(** [second = first], [*second], [first.reset()], [second->]. *)
Definition splice : list (op same_class) :=
  [op_assign same_class second first;
   op_deref same_class second;
   op_reset same_class first None;
   op_arrow same_class second].

(** Where that leaves the store: node 20 and its member are gone. *)
Definition spliced : state :=
  State {[10%positive]}
        {[1%positive := None;
          2%positive := Some 10%positive;
          11%positive := None]} [20%positive].

(** And after [auto_ptr<Node> third(second)]. *)
Definition handed_on : state :=
  State {[10%positive]}
        {[1%positive := None;
          2%positive := None;
          3%positive := Some 10%positive;
          11%positive := None]} [20%positive].

End Lists.

Module PreprocessorFacts.
Import Preprocessor.

Lemma defined_insert m b e : defined m (<[m := b]> e) = true.
Proof.
  unfold defined. apply bool_decide_eq_true.
  rewrite lookup_insert_eq. by eexists.
Qed.

Lemma defined_insert_ne m m' b e :
  m ≠ m' → defined m' (<[m := b]> e) = defined m' e.
Proof. intros Hne. unfold defined. by rewrite lookup_insert_ne. Qed.

Lemma define_if_absent_defined m u :
  defined m (macros (define_if_absent m u)) = true.
Proof.
  unfold define_if_absent. destruct (defined m (macros u)) eqn:E; [done|].
  apply defined_insert.
Qed.

(** Once lines 13-15 have run, the flag stays set up to line 30. *)
Lemma flag_set_at_line_30 inc u :
  defined "_GLIBCXX_USE_DEPRECATED"
    (macros (msvc_region_open
      (define_if_absent "_LIBCPP_ENABLE_CXX17_REMOVED_AUTO_PTR"
        (define_if_absent "_GLIBCXX_USE_DEPRECATED"
          (include_memory inc u))))) = true.
Proof.
  set (u1 := define_if_absent "_GLIBCXX_USE_DEPRECATED" _).
  assert (H1 : defined "_GLIBCXX_USE_DEPRECATED" (macros u1) = true)
    by apply define_if_absent_defined.
  set (u2 := define_if_absent "_LIBCPP_ENABLE_CXX17_REMOVED_AUTO_PTR" u1).
  assert (H2 : defined "_GLIBCXX_USE_DEPRECATED" (macros u2) = true).
  { unfold u2, define_if_absent.
    destruct (defined "_LIBCPP_ENABLE_CXX17_REMOVED_AUTO_PTR" (macros u1));
      [done|].
    simpl. by rewrite defined_insert_ne. }
  unfold msvc_region_open.
  destruct (defined "_MSC_VER" (macros u2)); [|done].
  simpl. by rewrite defined_insert_ne.
Qed.

Lemma activation_if_flag_set e b :
  defined "_GLIBCXX_USE_DEPRECATED" e = true →
  activation_if e = Some b → b = false.
Proof.
  intros Hd. unfold activation_if.
  destruct (if_operand "__cplusplus" e); simpl; [|done].
  rewrite Hd. intros [= <-]. by rewrite andb_false_r.
Qed.

(** The [namespace std] block is dead text: in no macro environment,
    and whatever [<memory>] does, is it handed to the compiler. *)
Lemma shim_never_active inc e : shim_active inc e = false.
Proof.
  unfold shim_active, odb_compatibility_h.
  destruct (defined "ODB_COMPATIBILITY_H" (macros (TU e [] false [])));
    [done|].
  cbv zeta.
  set (u0 := define "ODB_COMPATIBILITY_H" Empty (TU e [] false [])).
  pose proof (flag_set_at_line_30 inc u0) as Hflag.
  set (u3 := msvc_region_open _) in *.
  assert (Hs : shim_defined u3 = false).
  { unfold u3, msvc_region_open, define_if_absent.
    repeat (case_match; simpl); done. }
  unfold shim_region.
  destruct (activation_if (macros u3)) as [b|] eqn:Ha; simpl; [|done].
  apply (activation_if_flag_set _ _ Hflag) in Ha as ->.
  unfold msvc_region_close. by case_match.
Qed.

(** C1: at the initial macro environment of g++ -std=c++17 (GNU
    toolchain, __cplusplus = 201703L, _GLIBCXX_USE_DEPRECATED not set
    before the header) the three-part condition holds, and yet the
    header does not compile the shim in, whatever <memory> does to the
    macros: lines 13-15 set the flag that line 30 requires unset. *)
Theorem C1_shim_inactive_on_gcc_cxx17 :
  shim_wanted gcc_cxx17 = true ∧
  ∀ memory_header, shim_active memory_header gcc_cxx17 = false.
Proof.
  split; [by vm_compute|]. intros inc. apply shim_never_active.
Qed.

End PreprocessorFacts.

Module AutoPtrFacts.
Import AutoPtr.

(** *** The monad *)

Lemma bind_Some {A B} (m : M A) (k : A → M B) σ r :
  (m ≫= k) σ = Some r ↔ ∃ a σ1, m σ = Some (a, σ1) ∧ k a σ1 = Some r.
Proof.
  unfold mbind, M_bind. destruct (m σ) as [[a σ1]|]; split.
  - intros H. by exists a, σ1.
  - by intros (? & ? & [= <- <-] & H).
  - done.
  - by intros (? & ? & ? & _).
Qed.

Lemma ret_Some {A} (a : A) σ r : (mret a : M A) σ = Some r ↔ r = (a, σ).
Proof. unfold mret, M_ret. split; [by intros [= <-] | by intros ->]. Qed.

Lemma load_Some h σ r :
  load h σ = Some r ↔ ∃ p, handles σ !! h = Some p ∧ r = (p, σ).
Proof.
  unfold load. destruct (handles σ !! h) as [p|]; split.
  - intros [= <-]. by exists p.
  - by intros (? & [= <-] & ->).
  - done.
  - by intros (? & ? & _).
Qed.

Lemma store_Some h p σ r :
  store h p σ = Some r ↔
  is_Some (handles σ !! h) ∧
  r = ((), State (heap σ) (<[h := p]> (handles σ)) (freed σ)).
Proof.
  unfold store. destruct (handles σ !! h) as [q|]; split.
  - intros [= <-]. split; [by eexists | done].
  - by intros [_ ->].
  - done.
  - by intros [[? ?] _].
Qed.

Lemma begin_lifetime_Some h p σ r :
  begin_lifetime h p σ = Some r ↔
  handles σ !! h = None ∧
  r = ((), State (heap σ) (<[h := p]> (handles σ)) (freed σ)).
Proof.
  unfold begin_lifetime. destruct (handles σ !! h) as [q|]; split.
  - done.
  - by intros [? _].
  - by intros [= <-].
  - by intros [_ ->].
Qed.

Lemma end_lifetime_Some h σ r :
  end_lifetime h σ = Some r ↔
  is_Some (handles σ !! h) ∧
  r = ((), State (heap σ) (delete h (handles σ)) (freed σ)).
Proof.
  unfold end_lifetime. destruct (handles σ !! h) as [q|]; split.
  - intros [= <-]. split; [by eexists | done].
  - by intros [_ ->].
  - done.
  - by intros [[? ?] _].
Qed.

(** [delete] never touches a handle. *)
Lemma delete_handles p σ u σ' :
  delete_ p σ = Some (u, σ') → handles σ' = handles σ.
Proof.
  unfold delete_. destruct p as [l|]; [|by intros [= _ <-]].
  case_decide; [by intros [= _ <-] | done].
Qed.

Lemma delete_null σ : delete_ None σ = Some ((), σ).
Proof. done. Qed.

Lemma delete_allocated l σ :
  l ∈ heap σ →
  delete_ (Some l) σ =
    Some ((), State (heap σ ∖ {[l]}) (handles σ) (l :: freed σ)).
Proof. intros Hl. unfold delete_. by rewrite decide_True. Qed.

Ltac minv :=
  repeat match goal with
  | H : (_ ≫= _) _ = Some _ |- _ =>
      apply bind_Some in H as (? & ? & ? & H)
  | H : mret _ _ = Some _ |- _ => apply ret_Some in H
  | H : load _ _ = Some _ |- _ => apply load_Some in H as (? & ? & ?)
  | H : store _ _ _ = Some _ |- _ => apply store_Some in H as [? ?]
  | H : begin_lifetime _ _ _ = Some _ |- _ =>
      apply begin_lifetime_Some in H as [? ?]
  | H : end_lifetime _ _ = Some _ |- _ =>
      apply end_lifetime_Some in H as [? ?]
  | H : delete_ _ _ = Some (_, _) |- _ => apply delete_handles in H
  | H : (_, _) = (_, _) |- _ => injection H as ? ?
  | H : (if ?b then _ else _) _ = Some _ |- _ => destruct b
  end; simplify_eq/=.

(** *** What each member does to the handles *)

Section Members.
Context {cls : Type} (convertible : cls → cls → Prop).

Lemma release_Some {T : cls} (this : auto_ptr T) σ r :
  release this σ = Some r ↔
  ∃ p, handles σ !! addr this = Some p ∧
       r = (p, State (heap σ) (<[addr this := None]> (handles σ))
                 (freed σ)).
Proof.
  unfold release. split.
  - intros H. minv. eauto.
  - intros (p & Hp & ->). apply bind_Some. exists p, σ. split.
    { apply load_Some. eauto. }
    apply bind_Some. eexists _, _. split; [|by apply ret_Some].
    apply store_Some. split; [by eexists | done].
Qed.

(** Running a member forward: unfold it down to the store and
    resolve the lookups with the facts at hand. *)
Ltac mrun :=
  unfold operator_assign_ref,
    operator_auto_ptr_ref, operator_auto_ptr, auto_ptr_copy, auto_ptr_copy_U,
    auto_ptr_from_ref, auto_ptr_ctor, dtor, reset, get, operator_arrow,
    operator_deref, release, lvalue, undefined;
  unfold mbind, M_bind, mret, M_ret, load, store, begin_lifetime,
    end_lifetime, delete_;
  repeat first
    [ progress simpl
    | progress simplify_map_eq
    | rewrite decide_True by (done || congruence)
    | rewrite decide_False by (intros ?; done || congruence) ].

(** C5: release on a handle holding p returns p and leaves the handle
    null with heap and deallocation log untouched; destroying the
    handle right after succeeds and deallocates nothing: heap and
    log are still those from before the release. *)
Theorem C5_release_then_destroy {T : cls}
    (h : auto_ptr T) (σ : state) (p : ptr) :
  handles σ !! addr h = Some p →
  ∃ σ1 σ2,
    release h σ = Some (p, σ1) ∧
    handles σ1 !! addr h = Some None ∧
    heap σ1 = heap σ ∧ freed σ1 = freed σ ∧
    dtor h σ1 = Some ((), σ2) ∧
    heap σ2 = heap σ ∧ freed σ2 = freed σ.
Proof.
  intros Hh. eexists _, _. split.
  { mrun. reflexivity. }
  split; [by simplify_map_eq|]. do 2 (split; [done|]).
  split; [mrun; reflexivity | done].
Qed.

(** C6: copy-constructing B from a handle A that holds p makes B hold
    p and A null, and get on A then returns null; nothing is
    deallocated. *)
Theorem C6_copy_construct_transfers {T : cls}
    (a b : auto_ptr T) (σ : state) (p : ptr) :
  handles σ !! addr a = Some p →
  handles σ !! addr b = None →
  ∃ σ', auto_ptr_copy b a σ = Some ((), σ') ∧
        handles σ' !! addr b = Some p ∧
        handles σ' !! addr a = Some None ∧
        get a σ' = Some (None, σ') ∧
        heap σ' = heap σ ∧ freed σ' = freed σ.
Proof.
  intros Ha Hb.
  assert (addr a ≠ addr b) by congruence.
  eexists. split.
  { mrun. reflexivity. }
  repeat split; try by simplify_map_eq.
  mrun. reflexivity.
Qed.

(** C7: for element types D and B with D* convertible to B*, turning
    a handle to D that holds d into a proxy for B and constructing a
    handle to B from that proxy gives a handle to B holding d, with
    the handle to D null and nothing deallocated. *)
Theorem C7_covariant_proxy_round_trip {D B : cls}
    (conv : convertible D B)
    (src : auto_ptr D) (dst : auto_ptr B) (σ : state) (d : ptr) :
  handles σ !! addr src = Some d →
  handles σ !! addr dst = None →
  ∃ σ',
    (ref ← operator_auto_ptr_ref convertible B conv src;
     auto_ptr_from_ref dst ref) σ = Some ((), σ') ∧
    handles σ' !! addr dst = Some d ∧
    handles σ' !! addr src = Some None ∧
    heap σ' = heap σ ∧ freed σ' = freed σ.
Proof.
  intros Hs Hd.
  assert (addr src ≠ addr dst) by congruence.
  eexists. split.
  { mrun. reflexivity. }
  repeat split; by simplify_map_eq.
Qed.


(** C9: on a handle holding p, get and operator-> return p and
    operator* (p pointing to an allocated instance) returns that
    instance, each leaving the whole store, so the handle's pointer,
    as it was; whenever operator* returns at all the store is as it
    was; two get calls in a row return the same pointer twice. *)
Theorem C9_observers_leave_store {T : cls}
    (h : auto_ptr T) (σ : state) (p : ptr) :
  handles σ !! addr h = Some p →
  get h σ = Some (p, σ) ∧
  operator_arrow h σ = Some (p, σ) ∧
  (∀ l, p = Some l → l ∈ heap σ → operator_deref h σ = Some (l, σ)) ∧
  (∀ l σ', operator_deref h σ = Some (l, σ') → σ' = σ ∧ p = Some l) ∧
  (p1 ← get h; p2 ← get h; mret (p1, p2)) σ = Some ((p, p), σ).
Proof.
  intros Hh. split; [by mrun|]. split; [by mrun|].
  split; [|split].
  - intros l -> Hl. by mrun.
  - intros l σ'. mrun. destruct p as [l'|]; [|done].
    case_decide; [|done]. by intros [= <- <-].
  - by mrun.
Qed.

End Members.

(** *** Single ownership *)

Lemma unowned_null hs : unowned None hs.
Proof. by left. Qed.

Lemma unowned_delete p h hs : unowned p hs → unowned p (delete h hs).
Proof.
  intros [->|Hall]; [by left | right].
  intros h' q [_ Hq]%lookup_delete_Some. by apply (Hall h').
Qed.

Lemma single_owner_empty : single_owner ∅.
Proof. intros h1 h2 l H1. by rewrite lookup_empty in H1. Qed.

Lemma single_owner_delete h hs : single_owner hs → single_owner (delete h hs).
Proof.
  intros Hso h1 h2 l [_ H1]%lookup_delete_Some [_ H2]%lookup_delete_Some.
  by apply (Hso h1 h2 l).
Qed.

(** Writing into a handle a pointer no other handle owns. *)
Lemma single_owner_insert h p hs :
  single_owner hs → unowned p (delete h hs) →
  single_owner (<[h := p]> hs).
Proof.
  intros Hso Hun h1 h2 l H1 H2.
  assert (Hother : ∀ h', h' ≠ h → hs !! h' = Some (Some l) → p ≠ Some l).
  { intros h' Hne Hh' ->. destruct Hun as [?|Hall]; [done|].
    apply (Hall h' (Some l)); [|done]. by rewrite lookup_delete_ne. }
  destruct (decide (h1 = h)) as [->|Hn1], (decide (h2 = h)) as [->|Hn2];
    simplify_map_eq; [done| | |by apply (Hso h1 h2 l)].
  - by destruct (Hother h2 Hn2 H2).
  - by destruct (Hother h1 Hn1 H1).
Qed.

Lemma single_owner_insert_null h hs :
  single_owner hs → single_owner (<[h := None]> hs).
Proof. intros Hso. apply single_owner_insert; [done | apply unowned_null]. Qed.

(** Moving the pointer of [a] into [b]. *)
Lemma single_owner_transfer a b p hs :
  single_owner hs → hs !! a = Some p →
  single_owner (<[b := p]> (<[a := None]> hs)).
Proof.
  intros Hso Ha. apply single_owner_insert.
  { by apply single_owner_insert_null. }
  destruct p as [l|]; [right | by left].
  intros h' q [Hb Hq]%lookup_delete_Some ->.
  destruct (decide (h' = a)) as [->|Hne]; simplify_map_eq.
  by destruct Hne; apply (Hso h' a l).
Qed.

(** *** The theorems at work on the small client *)

Import Client.

(** [a.release()] and then [a]'s destructor. *)
Lemma C5_witness :
  ∃ σ1 σ2, release a a_and_b = Some (Some 10%positive, σ1) ∧
           dtor a σ1 = Some ((), σ2) ∧
           heap σ2 = heap a_and_b ∧ freed σ2 = [].
Proof.
  destruct (C5_release_then_destroy a a_and_b (Some 10%positive))
    as (σ1 & σ2 & Hrel & _ & _ & _ & Hdtor & Hheap & Hfreed);
    [reflexivity|].
  by exists σ1, σ2.
Defined.

(** [auto_ptr<Base> c(a)]. *)
Lemma C6_witness :
  ∃ σ', auto_ptr_copy c a a_and_b = Some ((), σ') ∧
        handles σ' !! addr c = Some (Some 10%positive) ∧
        get a σ' = Some (None, σ').
Proof.
  destruct (C6_copy_construct_transfers a c a_and_b (Some 10%positive))
    as (σ' & Hrun & Hc & _ & Hget & _); [reflexivity | reflexivity |].
  by exists σ'.
Defined.

(** [auto_ptr<Base> b(auto_ptr_ref<Base>(d))] for [d] a handle to
    [Derived]. *)
Lemma C7_witness :
  ∃ σ', (ref ← operator_auto_ptr_ref derives Base derived_to_base d;
         auto_ptr_from_ref b ref) only_d = Some ((), σ') ∧
        handles σ' !! addr b = Some (Some 30%positive) ∧
        handles σ' !! addr d = Some None.
Proof.
  destruct (C7_covariant_proxy_round_trip derives derived_to_base d b only_d
              (Some 30%positive))
    as (σ' & Hrun & Hb & Hd & _); [reflexivity | reflexivity |].
  by exists σ'.
Defined.


(** [a.get()] twice. *)
Lemma C9_witness :
  get a a_and_b = Some (Some 10%positive, a_and_b) ∧
  (p1 ← get a; p2 ← get a; mret (p1, p2)) a_and_b
    = Some ((Some 10%positive, Some 10%positive), a_and_b).
Proof.
  destruct (C9_observers_leave_store a a_and_b (Some 10%positive))
    as (Hget & _ & _ & _ & Htwice); [reflexivity|].
  by split.
Defined.

End AutoPtrFacts.

(** ** More on the preprocessor logic *)

Module HeaderFacts.
Import Preprocessor HeaderView PreprocessorFacts.

Lemma defined_true m (e : macro_env) : defined m e = true ↔ is_Some (e !! m).
Proof. unfold defined. apply bool_decide_eq_true. Qed.

Lemma defined_false m (e : macro_env) : defined m e = false ↔ e !! m = None.
Proof.
  unfold defined. rewrite bool_decide_eq_false, eq_None_not_Some. done.
Qed.

Lemma lookup_define_if_absent m u :
  macros (define_if_absent m u) !! m = Some (flag_body m (macros u)).
Proof.
  unfold define_if_absent, flag_body.
  destruct (defined m (macros u)) eqn:E.
  - apply defined_true in E as [b Hb]. by rewrite Hb.
  - apply defined_false in E. simpl. by rewrite lookup_insert_eq, E.
Qed.

Lemma lookup_define_if_absent_ne m m' u :
  m ≠ m' → macros (define_if_absent m u) !! m' = macros u !! m'.
Proof.
  intros Hne. unfold define_if_absent.
  destruct (defined m (macros u)); [done|]. simpl. by rewrite lookup_insert_ne.
Qed.

Lemma define_if_absent_rest m u :
  pragmas (define_if_absent m u) = pragmas u ∧
  shim_defined (define_if_absent m u) = shim_defined u.
Proof. unfold define_if_absent. by destruct (defined m (macros u)). Qed.

Lemma define_if_absent_redefined m u :
  redefined (define_if_absent m u) = redefined u.
Proof.
  unfold define_if_absent. destruct (defined m (macros u)) eqn:E; [done|].
  apply defined_false in E. simpl. unfold redefines. rewrite E.
  apply app_nil_r.
Qed.

Lemma defined_ext m (e e' : macro_env) :
  e !! m = e' !! m → defined m e = defined m e'.
Proof. unfold defined. by intros ->. Qed.

Lemma redefines_ext m b (e e' : macro_env) :
  e !! m = e' !! m → redefines m b e = redefines m b e'.
Proof. unfold redefines. by intros ->. Qed.

Lemma msvc_region_open_redefined u :
  redefined (msvc_region_open u) = redefined u ++ msvc_redefinitions (macros u).
Proof.
  unfold msvc_region_open, msvc_redefinitions.
  destruct (defined "_MSC_VER" (macros u)); simpl; [done|].
  by rewrite app_nil_r.
Qed.

Lemma msvc_region_open_lookup u m :
  m ≠ "_SILENCE_CXX17_AUTO_PTR_DEPRECATION_WARNING" →
  macros (msvc_region_open u) !! m = macros u !! m.
Proof.
  intros Hne. unfold msvc_region_open.
  destruct (defined "_MSC_VER" (macros u)); [|done].
  simpl. by rewrite lookup_insert_ne.
Qed.

Lemma msvc_region_open_rest u :
  pragmas (msvc_region_open u) =
    pragmas u ++ (if defined "_MSC_VER" (macros u)
                  then [warning_push; warning_disable 4996] else []) ∧
  shim_defined (msvc_region_open u) = shim_defined u.
Proof.
  unfold msvc_region_open. destruct (defined "_MSC_VER" (macros u)); simpl.
  - by rewrite <- app_assoc.
  - by rewrite app_nil_r.
Qed.

Section Included.
Variable memory_header : macro_env → macro_env.
Variable u : tu.

#[local] Abbreviation line30 := (at_line_30 memory_header u).

Lemma at_line_30_lookup m :
  m ≠ "_GLIBCXX_USE_DEPRECATED" →
  m ≠ "_LIBCPP_ENABLE_CXX17_REMOVED_AUTO_PTR" →
  m ≠ "_SILENCE_CXX17_AUTO_PTR_DEPRECATION_WARNING" →
  macros line30 !! m = after_memory memory_header u !! m.
Proof.
  intros H1 H2 H3. unfold at_line_30.
  rewrite msvc_region_open_lookup by done.
  by rewrite !lookup_define_if_absent_ne by done.
Qed.

Lemma at_line_30_glibcxx :
  macros line30 !! "_GLIBCXX_USE_DEPRECATED" =
  Some (flag_body "_GLIBCXX_USE_DEPRECATED" (after_memory memory_header u)).
Proof.
  unfold at_line_30. rewrite msvc_region_open_lookup by done.
  rewrite lookup_define_if_absent_ne by done.
  by rewrite lookup_define_if_absent.
Qed.

Lemma at_line_30_libcpp :
  macros line30 !! "_LIBCPP_ENABLE_CXX17_REMOVED_AUTO_PTR" =
  Some (flag_body "_LIBCPP_ENABLE_CXX17_REMOVED_AUTO_PTR"
          (after_memory memory_header u)).
Proof.
  unfold at_line_30. rewrite msvc_region_open_lookup by done.
  rewrite lookup_define_if_absent. unfold flag_body.
  by rewrite lookup_define_if_absent_ne by done.
Qed.

Lemma at_line_30_pragmas :
  pragmas line30 =
    pragmas u ++ (if defined "_MSC_VER" (after_memory memory_header u)
                  then [warning_push; warning_disable 4996] else []) ∧
  shim_defined line30 = shim_defined u.
Proof.
  unfold at_line_30.
  destruct (msvc_region_open_rest
    (define_if_absent "_LIBCPP_ENABLE_CXX17_REMOVED_AUTO_PTR"
      (define_if_absent "_GLIBCXX_USE_DEPRECATED"
        (include_memory memory_header
          (define "ODB_COMPATIBILITY_H" Empty u))))) as [-> ->].
  rewrite !(proj1 (define_if_absent_rest _ _)).
  rewrite !(proj2 (define_if_absent_rest _ _)).
  split; [|done]. f_equal.
  erewrite defined_ext; [done|].
  by rewrite !lookup_define_if_absent_ne by done.
Qed.

Lemma at_line_30_redefined :
  defined "ODB_COMPATIBILITY_H" (macros u) = false →
  redefined line30 =
    redefined u ++ msvc_redefinitions (after_memory memory_header u).
Proof.
  intros Hg%defined_false. unfold at_line_30.
  rewrite msvc_region_open_redefined, !define_if_absent_redefined. simpl.
  unfold redefines at 1. rewrite Hg, app_nil_r. f_equal.
  unfold msvc_redefinitions.
  erewrite (defined_ext "_MSC_VER"), (redefines_ext _ Empty); [done|..];
    by rewrite !lookup_define_if_absent_ne by done.
Qed.

(** The header on a unit that has not seen it: it fails when line 30
    does, and otherwise leaves the macros of line 30, the pragmas of both
    MSVC regions, the declarations the unit had and the redefinition of
    line 23. *)
Lemma header_first_inclusion :
  defined "ODB_COMPATIBILITY_H" (macros u) = false →
  odb_compatibility_h memory_header u =
    match if_operand "__cplusplus" (after_memory memory_header u) with
    | None => None
    | Some _ =>
        Some (TU (macros line30)
                 (pragmas u ++ msvc_pragmas (after_memory memory_header u))
                 (shim_defined u)
                 (redefined u
                    ++ msvc_redefinitions (after_memory memory_header u)))
    end.
Proof.
  intros Hg. unfold odb_compatibility_h. rewrite Hg. cbv zeta.
  change (msvc_region_open _) with line30. unfold shim_region, activation_if.
  assert (Hop : if_operand "__cplusplus" (macros line30) =
                if_operand "__cplusplus" (after_memory memory_header u))
    by (unfold if_operand; by rewrite at_line_30_lookup by done).
  rewrite Hop.
  destruct (if_operand "__cplusplus" (after_memory memory_header u)) as [v|];
    simpl; [|done].
  assert (Hflag : defined "_GLIBCXX_USE_DEPRECATED" (macros line30) = true)
    by (apply defined_true; rewrite at_line_30_glibcxx; by eexists).
  rewrite Hflag, andb_false_r. f_equal.
  unfold msvc_region_close, msvc_pragmas.
  erewrite (defined_ext "_MSC_VER" (macros line30))
    by (by apply at_line_30_lookup).
  destruct at_line_30_pragmas as [Hp Hs].
  rewrite <- (at_line_30_redefined Hg).
  destruct (defined "_MSC_VER" (after_memory memory_header u));
    unfold emit_pragma; simpl.
  - by rewrite Hp, Hs, <- app_assoc.
  - rewrite <- Hp, <- Hs. by destruct line30.
Qed.

Lemma at_line_30_silence :
  macros line30 !! "_SILENCE_CXX17_AUTO_PTR_DEPRECATION_WARNING" =
    if defined "_MSC_VER" (after_memory memory_header u) then Some Empty
    else after_memory memory_header u
           !! "_SILENCE_CXX17_AUTO_PTR_DEPRECATION_WARNING".
Proof.
  unfold at_line_30, msvc_region_open.
  erewrite (defined_ext "_MSC_VER")
    by (by rewrite !lookup_define_if_absent_ne by done).
  change (macros (include_memory _ _)) with (after_memory memory_header u).
  destruct (defined "_MSC_VER" (after_memory memory_header u)); simpl.
  - by rewrite lookup_insert_eq.
  - by rewrite !lookup_define_if_absent_ne by done.
Qed.

(** X1: whatever the translation unit has defined and whatever <memory>
    does, a header that preprocesses leaves the shim as it found it: it
    never hands the namespace std block to the compiler. *)
Theorem header_never_defines_shim u' :
  odb_compatibility_h memory_header u = Some u' →
  shim_defined u' = shim_defined u.
Proof.
  destruct (defined "ODB_COMPATIBILITY_H" (macros u)) eqn:Hg.
  - unfold odb_compatibility_h. rewrite Hg. by intros [= <-].
  - rewrite header_first_inclusion by done.
    destruct (if_operand "__cplusplus" (after_memory memory_header u));
      [by intros [= <-] | done].
Qed.

(** X2: after the first inclusion both feature macros are defined; each
    keeps the replacement list it had after <memory> if it had one, and
    is 1 otherwise. *)
Theorem header_presets_both_flags u' :
  defined "ODB_COMPATIBILITY_H" (macros u) = false →
  odb_compatibility_h memory_header u = Some u' →
  macros u' !! "_GLIBCXX_USE_DEPRECATED" =
    Some (flag_body "_GLIBCXX_USE_DEPRECATED"
            (after_memory memory_header u)) ∧
  macros u' !! "_LIBCPP_ENABLE_CXX17_REMOVED_AUTO_PTR" =
    Some (flag_body "_LIBCPP_ENABLE_CXX17_REMOVED_AUTO_PTR"
            (after_memory memory_header u)).
Proof.
  intros Hg. rewrite header_first_inclusion by done.
  destruct (if_operand "__cplusplus" (after_memory memory_header u));
    [|done]; intros [= <-]; simpl;
    by rewrite at_line_30_glibcxx, at_line_30_libcpp.
Qed.

(** X3: the first inclusion adds to the unit's pragmas either nothing
    (no _MSC_VER after <memory>) or exactly push, disable 4996, pop, in
    this order, so the warning state is restored; the silencing macro is
    defined to nothing in the second case and left alone in the first. *)
Theorem header_msvc_region_balanced u' :
  defined "ODB_COMPATIBILITY_H" (macros u) = false →
  odb_compatibility_h memory_header u = Some u' →
  pragmas u' = pragmas u ++ msvc_pragmas (after_memory memory_header u) ∧
  macros u' !! "_SILENCE_CXX17_AUTO_PTR_DEPRECATION_WARNING" =
    if defined "_MSC_VER" (after_memory memory_header u) then Some Empty
    else after_memory memory_header u
           !! "_SILENCE_CXX17_AUTO_PTR_DEPRECATION_WARNING".
Proof.
  intros Hg. rewrite header_first_inclusion by done.
  destruct (if_operand "__cplusplus" (after_memory memory_header u));
    [|done]; intros [= <-]; simpl; by rewrite at_line_30_silence.
Qed.

(** X4: of the header's #define directives only line 23 can meet a
    macro that is already defined: the first inclusion redefines the
    silencing macro, and nothing else, exactly when _MSC_VER is defined
    after <memory> and the silencing macro has a replacement list there
    that is not empty (as after /D on the command line, which defines it
    as 1); in every other case no macro is redefined. *)
Theorem header_redefines_only_on_line_23 u' :
  defined "ODB_COMPATIBILITY_H" (macros u) = false →
  odb_compatibility_h memory_header u = Some u' →
  redefined u' =
    redefined u ++ msvc_redefinitions (after_memory memory_header u) ∧
  (msvc_redefinitions (after_memory memory_header u) = [] ↔
     defined "_MSC_VER" (after_memory memory_header u) = false ∨
     after_memory memory_header u
       !! "_SILENCE_CXX17_AUTO_PTR_DEPRECATION_WARNING" = None ∨
     after_memory memory_header u
       !! "_SILENCE_CXX17_AUTO_PTR_DEPRECATION_WARNING" = Some Empty).
Proof.
  intros Hg. rewrite header_first_inclusion by done.
  destruct (if_operand "__cplusplus" (after_memory memory_header u));
    [|done]; intros [= <-]; simpl. split; [done|].
  unfold msvc_redefinitions, redefines.
  destruct (defined "_MSC_VER" (after_memory memory_header u)); simpl;
    [|by split; [left|]].
  destruct (after_memory memory_header u
              !! "_SILENCE_CXX17_AUTO_PTR_DEPRECATION_WARNING") as [b|];
    [|by split; [right; left|]].
  destruct (decide (b = Empty)) as [->|Hb].
  - rewrite bool_decide_eq_true_2 by done. simpl. by split; [right; right|].
  - rewrite bool_decide_eq_false_2 by done. simpl. split; [done|].
    intros [?|[?|[= ?]]]; done.
Qed.

(** X5: the include guard. If <memory> leaves ODB_COMPATIBILITY_H
    defined, including the header again in the unit it has produced
    changes nothing. *)
Theorem header_second_inclusion_is_noop u' :
  defined "ODB_COMPATIBILITY_H" (after_memory memory_header u) = true →
  odb_compatibility_h memory_header u = Some u' →
  odb_compatibility_h memory_header u' = Some u'.
Proof.
  intros Hkept Hfirst.
  assert (Hg' : defined "ODB_COMPATIBILITY_H" (macros u') = true).
  { destruct (defined "ODB_COMPATIBILITY_H" (macros u)) eqn:Hg.
    - unfold odb_compatibility_h in Hfirst. rewrite Hg in Hfirst.
      by injection Hfirst as <-.
    - rewrite header_first_inclusion in Hfirst by done.
      destruct (if_operand "__cplusplus" (after_memory memory_header u));
        [|done]; injection Hfirst as <-; simpl;
        by erewrite defined_ext by (by apply at_line_30_lookup). }
  unfold odb_compatibility_h. by rewrite Hg'.
Qed.

(** X6: apart from the guard's effect through <memory>, the first
    inclusion changes no macro but the two feature macros and the
    silencing macro: every other name has the replacement list it had
    after <memory>. *)
Theorem header_leaves_other_macros u' m :
  defined "ODB_COMPATIBILITY_H" (macros u) = false →
  odb_compatibility_h memory_header u = Some u' →
  m ≠ "_GLIBCXX_USE_DEPRECATED" →
  m ≠ "_LIBCPP_ENABLE_CXX17_REMOVED_AUTO_PTR" →
  m ≠ "_SILENCE_CXX17_AUTO_PTR_DEPRECATION_WARNING" →
  macros u' !! m = after_memory memory_header u !! m.
Proof.
  intros Hg Hfirst H1 H2 H3. rewrite header_first_inclusion in Hfirst by done.
  destruct (if_operand "__cplusplus" (after_memory memory_header u));
    [|done]; injection Hfirst as <-; simpl; by apply at_line_30_lookup.
Qed.

End Included.

(** *** The theorems on a Microsoft translation unit *)

Lemma header_never_defines_shim_witness :
  ∃ u', odb_compatibility_h memory_clears_flag msvc_unit = Some u' ∧
        shim_defined u' = false.
Proof.
  eexists. split; [vm_compute; reflexivity|].
  apply (header_never_defines_shim memory_clears_flag msvc_unit).
  vm_compute; reflexivity.
Defined.

Lemma header_presets_both_flags_witness :
  ∃ u', odb_compatibility_h memory_clears_flag msvc_unit = Some u' ∧
        macros u' !! "_GLIBCXX_USE_DEPRECATED" = Some (IntLit 0) ∧
        macros u' !! "_LIBCPP_ENABLE_CXX17_REMOVED_AUTO_PTR"
          = Some (IntLit 1).
Proof.
  eexists. split; [vm_compute; reflexivity|].
  apply (header_presets_both_flags memory_clears_flag msvc_unit);
    vm_compute; reflexivity.
Defined.

Lemma header_msvc_region_balanced_witness :
  ∃ u', odb_compatibility_h memory_clears_flag msvc_unit = Some u' ∧
        pragmas u' = [warning_disable 4100; warning_push;
                      warning_disable 4996; warning_pop] ∧
        macros u' !! "_SILENCE_CXX17_AUTO_PTR_DEPRECATION_WARNING"
          = Some Empty.
Proof.
  eexists. split; [vm_compute; reflexivity|].
  apply (header_msvc_region_balanced memory_clears_flag msvc_unit);
    vm_compute; reflexivity.
Defined.

Lemma header_redefines_only_on_line_23_witness :
  ∃ u', odb_compatibility_h memory_clears_flag silenced_unit = Some u' ∧
        redefined u' = ["_SILENCE_CXX17_AUTO_PTR_DEPRECATION_WARNING"].
Proof.
  eexists. split; [vm_compute; reflexivity|].
  apply (header_redefines_only_on_line_23 memory_clears_flag silenced_unit);
    vm_compute; reflexivity.
Defined.

Lemma header_second_inclusion_is_noop_witness :
  ∃ u', odb_compatibility_h memory_clears_flag msvc_unit = Some u' ∧
        odb_compatibility_h memory_clears_flag u' = Some u'.
Proof.
  eexists. split; [vm_compute; reflexivity|].
  apply (header_second_inclusion_is_noop memory_clears_flag msvc_unit);
    vm_compute; reflexivity.
Defined.

Lemma header_leaves_other_macros_witness :
  ∃ u', odb_compatibility_h memory_clears_flag msvc_unit = Some u' ∧
        macros u' !! "_MSC_VER" = Some (IntLit 1930).
Proof.
  eexists. split; [vm_compute; reflexivity|].
  apply (header_leaves_other_macros memory_clears_flag msvc_unit);
    (vm_compute; reflexivity) || done.
Defined.

End HeaderFacts.

(** ** More on the members of std::auto_ptr *)

Module AutoPtrMore.
Import AutoPtr Contract AutoPtrFacts.

Lemma deallocated_not_allocated (l : loc) (X : gset loc) : l ∉ X ∖ {[l]}.
Proof.
  intros [_ Hl]%elem_of_difference. apply Hl. by apply elem_of_singleton.
Qed.

(** Running members forward on a store whose lookups are known. *)
Ltac mforward :=
  unfold operator_assign_ref,
    operator_auto_ptr_ref, operator_auto_ptr, auto_ptr_copy, auto_ptr_copy_U,
    auto_ptr_from_ref, auto_ptr_ctor, dtor, reset, get, operator_arrow,
    operator_deref, release, lvalue, undefined;
  unfold mbind, M_bind, mret, M_ret, load, store, begin_lifetime,
    end_lifetime, delete_;
  repeat first
    [ progress simpl
    | progress simplify_map_eq
    | rewrite decide_True by (done || congruence)
    | rewrite decide_False
        by (done || congruence || apply deallocated_not_allocated) ].

Lemma state_eta σ : State (heap σ) (handles σ) (freed σ) = σ.
Proof. by destruct σ. Qed.

Section Members.
Context {cls : Type} (convertible : cls → cls → Prop).

(** X7: a handle constructed from a raw pointer holds that pointer: get
    returns it, and the heap and the other handles are as before. *)
Theorem construct_then_get {T : cls} (h : auto_ptr T) (σ : state) (p : ptr) :
  handles σ !! addr h = None →
  (auto_ptr_ctor h p;; get h) σ =
    Some (p, State (heap σ) (<[addr h := p]> (handles σ)) (freed σ)).
Proof. intros Hh. by mforward. Qed.




(** X11: converting a handle to a proxy of its own element type and
    assigning that proxy back to it restores the store: the handle holds
    what it held and nothing is deallocated. *)
Theorem proxy_round_trip_restores {T : cls} (conv : convertible T T)
    (h : auto_ptr T) (σ : state) (p : ptr) :
  handles σ !! addr h = Some p →
  (ref ← operator_auto_ptr_ref convertible T conv h;
   operator_assign_ref h ref) σ = Some (h, σ).
Proof.
  intros Hh. destruct p as [l|]; mforward.
  - rewrite insert_insert_eq, insert_id by done. by rewrite state_eta.
  - rewrite insert_id by done. by rewrite state_eta.
Qed.

(** X12: h.reset(h.release()) restores the store. *)
Theorem release_reset_restores {T : cls}
    (h : auto_ptr T) (σ : state) (p : ptr) :
  handles σ !! addr h = Some p →
  (q ← release h; reset h q) σ = Some ((), σ).
Proof.
  intros Hh. destruct p as [l|]; mforward.
  - rewrite insert_insert_eq, insert_id by done. by rewrite state_eta.
  - rewrite insert_id by done. by rewrite state_eta.
Qed.

(** X13: the conversion of a handle to a handle of a convertible
    element type constructs the result holding what the source held and
    leaves the source null; nothing is deallocated. *)
Theorem conversion_to_handle_transfers {T U : cls} (conv : convertible T U)
    (src : auto_ptr T) (result : auto_ptr U) (σ : state) (p : ptr) :
  handles σ !! addr src = Some p →
  handles σ !! addr result = None →
  operator_auto_ptr convertible U conv src result σ =
    Some ((), State (heap σ)
                (<[addr result := p]> (<[addr src := None]> (handles σ)))
                (freed σ)).
Proof.
  intros Hs Hr. assert (addr src ≠ addr result) by congruence. by mforward.
Qed.

(** X14: the converting copy constructor does the same from a handle of
    a convertible element type. *)
Theorem converting_copy_transfers {T U : cls} (conv : convertible U T)
    (this : auto_ptr T) (other : auto_ptr U) (σ : state) (p : ptr) :
  handles σ !! addr other = Some p →
  handles σ !! addr this = None →
  auto_ptr_copy_U convertible conv this other σ =
    Some ((), State (heap σ)
                (<[addr this := p]> (<[addr other := None]> (handles σ)))
                (freed σ)).
Proof.
  intros Ho Ht. assert (addr other ≠ addr this) by congruence. by mforward.
Qed.

(** X15: on a null handle operator* is undefined, while operator-> and
    get return the null pointer and leave the store alone; operator* is
    undefined as well on a handle whose instance is not allocated. *)
Theorem deref_needs_an_instance {T : cls} (h : auto_ptr T) (σ : state) :
  (handles σ !! addr h = Some None →
     operator_deref h σ = None ∧
     operator_arrow h σ = Some (None, σ) ∧
     get h σ = Some (None, σ)) ∧
  (∀ l, handles σ !! addr h = Some (Some l) → l ∉ heap σ →
     operator_deref h σ = None).
Proof.
  split.
  - intros Hh. repeat split; by mforward.
  - intros l Hh Hl. by mforward.
Qed.

(** X18: constructing a handle from the proxy another handle converts
    to is the copy constructor, in every store: same result, same
    undefined cases. *)
Theorem copy_through_proxy_agrees {T : cls} (conv : convertible T T)
    (this other : auto_ptr T) (σ : state) :
  (ref ← operator_auto_ptr_ref convertible T conv other;
   auto_ptr_from_ref this ref) σ = auto_ptr_copy this other σ.
Proof.
  unfold operator_auto_ptr_ref, auto_ptr_from_ref, auto_ptr_copy, release.
  unfold mbind, M_bind, mret, M_ret, load, store.
  destruct (handles σ !! addr other) eqn:Hother; simpl; [|done].
  by rewrite Hother.
Qed.

End Members.

(** *** The theorems on the small client *)

Import Client Scenarios.

Lemma construct_then_get_witness :
  (auto_ptr_ctor c (Some 20%positive);; get c) a_null =
    Some (Some 20%positive,
          State (heap a_null)
                (<[addr c := Some 20%positive]> (handles a_null)) []).
Proof. apply (construct_then_get c a_null (Some 20%positive)). reflexivity. Defined.




Lemma proxy_round_trip_restores_witness :
  (ref ← operator_auto_ptr_ref derives Base base_to_base a;
   operator_assign_ref a ref) a_and_b = Some (a, a_and_b).
Proof.
  apply (proxy_round_trip_restores derives base_to_base a a_and_b
           (Some 10%positive)).
  reflexivity.
Defined.

Lemma release_reset_restores_witness :
  (q ← release a; reset a q) a_and_b = Some ((), a_and_b).
Proof.
  apply (release_reset_restores a a_and_b (Some 10%positive)). reflexivity.
Defined.

Lemma conversion_to_handle_transfers_witness :
  operator_auto_ptr derives Base derived_to_base d b only_d =
    Some ((), State (heap only_d)
                (<[addr b := Some 30%positive]>
                   (<[addr d := None]> (handles only_d))) []).
Proof.
  apply (conversion_to_handle_transfers derives derived_to_base d b only_d
           (Some 30%positive)); reflexivity.
Defined.

Lemma converting_copy_transfers_witness :
  auto_ptr_copy_U derives derived_to_base b d only_d =
    Some ((), State (heap only_d)
                (<[addr b := Some 30%positive]>
                   (<[addr d := None]> (handles only_d))) []).
Proof.
  apply (converting_copy_transfers derives derived_to_base b d only_d
           (Some 30%positive)); reflexivity.
Defined.

Lemma copy_through_proxy_agrees_witness :
  (ref ← operator_auto_ptr_ref derives Base base_to_base a;
   auto_ptr_from_ref c ref) a_and_b = auto_ptr_copy c a a_and_b.
Proof.
  apply (copy_through_proxy_agrees derives base_to_base c a a_and_b).
Defined.

Lemma deref_needs_an_instance_witness :
  operator_deref a a_null = None ∧
  get a a_null = Some (None, a_null) ∧
  operator_deref a dangling = None.
Proof.
  destruct (proj1 (deref_needs_an_instance a a_null) eq_refl)
    as (Hderef & _ & Hget).
  split; [exact Hderef|]. split; [exact Hget|].
  apply (proj2 (deref_needs_an_instance a dangling) 10%positive);
    [reflexivity | compute_done].
Defined.

End AutoPtrMore.

(** ** The members that delete, over an element type with a destructor *)

Module AutoPtrTFacts.
Import AutoPtr Contract AutoPtrT AutoPtrFacts.

Lemma single_owner_subseteq (hs hs' : gmap hid ptr) :
  hs' ⊆ hs → single_owner hs → single_owner hs'.
Proof.
  intros Hsub Hso h1 h2 l H1 H2.
  apply (Hso h1 h2 l); by eapply lookup_weaken.
Qed.

Lemma unowned_subseteq p (hs hs' : gmap hid ptr) :
  hs' ⊆ hs → unowned p hs → unowned p hs'.
Proof.
  intros Hsub [->|Hall]; [by left | right].
  intros h q Hq. apply (Hall h). by eapply lookup_weaken.
Qed.

Lemma deallocate_Some l σ r :
  deallocate l σ = Some r ↔
  l ∈ heap σ ∧ r = ((), State (heap σ ∖ {[l]}) (handles σ) (l :: freed σ)).
Proof.
  unfold deallocate. case_decide; split.
  - by intros [= <-].
  - by intros [_ ->].
  - done.
  - by intros [? _].
Qed.

Lemma lvalue_Some l σ r : lvalue l σ = Some r ↔ l ∈ heap σ ∧ r = (l, σ).
Proof.
  unfold lvalue. case_decide; split.
  - by intros [= <-].
  - by intros [_ ->].
  - done.
  - by intros [? _].
Qed.

Section ElementType.
Context {cls : Type} {convertible : cls → cls → Prop}.
Variable destroy : loc → M unit.
Implicit Types (o : op convertible) (ops : list (op convertible)).

(** What [delete] of an allocated instance comes to. *)
Lemma delete_Some_inv l σ r :
  delete_ destroy (Some l) σ = Some r ↔
  ∃ u σ1, l ∈ heap σ ∧ destroy l σ = Some (u, σ1) ∧ l ∈ heap σ1 ∧
          r = ((), State (heap σ1 ∖ {[l]}) (handles σ1) (l :: freed σ1)).
Proof.
  unfold delete_. split.
  - intros (? & ? & (Hl & [= <- <-])%lvalue_Some
              & (u & σ1 & Hd & (Hl1 & ->)%deallocate_Some)%bind_Some)%bind_Some.
    by exists u, σ1.
  - intros (u & σ1 & Hl & Hd & Hl1 & ->).
    apply bind_Some. exists l, σ. split; [by apply lvalue_Some|].
    apply bind_Some. exists u, σ1. split; [done|]. by apply deallocate_Some.
Qed.

Lemma delete_handles_subseteq p σ u σ' :
  only_destroys destroy →
  delete_ destroy p σ = Some (u, σ') → handles σ' ⊆ handles σ.
Proof.
  intros Hd. destruct p as [l|].
  - intros (? & σ1 & _ & Hrun & _ & [= _ ->])%delete_Some_inv. simpl.
    by eapply Hd.
  - by intros [= _ <-].
Qed.

Lemma run_cons o ops σ σ' :
  run destroy (o :: ops) σ = Some ((), σ') ↔
  ∃ σ1, exec destroy o σ = Some ((), σ1) ∧
        run destroy ops σ1 = Some ((), σ').
Proof.
  simpl. etrans; [apply bind_Some|]. split.
  - intros ([] & σ1 & ? & ?). eauto.
  - intros (σ1 & ? & ?). by exists (), σ1.
Qed.

Ltac tunfold :=
  unfold exec, operator_assign, operator_assign_U, operator_assign_ref,
    dtor, reset, AutoPtr.operator_auto_ptr_ref, AutoPtr.operator_auto_ptr,
    AutoPtr.auto_ptr_copy, AutoPtr.auto_ptr_copy_U,
    AutoPtr.auto_ptr_from_ref, AutoPtr.auto_ptr_ctor, AutoPtr.get,
    AutoPtr.operator_arrow, AutoPtr.operator_deref, AutoPtr.release in *.

(** Taking a defined call apart; what [delete] did is kept as the fact
    that it changed no handle. *)
Ltac tinv Hd :=
  tunfold; minv;
  repeat match goal with
  | H : delete_ destroy _ _ = Some (_, _) |- _ =>
      apply (delete_handles_subseteq _ _ _ _ Hd) in H
  | H : lvalue _ _ = Some _ |- _ => apply lvalue_Some in H as [? ?]
  | H : undefined _ = Some _ |- _ => discriminate H
  | H : match ?p with Some _ => _ | None => _ end _ = Some _ |- _ =>
      destruct p
  end; simplify_eq/=.

Lemma exec_single_owner o σ σ' :
  only_destroys destroy →
  single_owner (handles σ) → admissible o σ →
  exec destroy o σ = Some ((), σ') →
  single_owner (handles σ').
Proof.
  intros Hd Hso Hadm Hex. destruct o; simpl in Hadm; tinv Hd;
    repeat match goal with
    | H : handles ?s ⊆ handles σ |- _ =>
        lazymatch goal with
        | _ : single_owner (handles s) |- _ => fail
        | _ => pose proof (single_owner_subseteq _ _ H Hso)
        end
    | H : handles ?s ⊆ handles σ, Hun : unowned ?p (delete ?h (handles σ))
      |- _ =>
        lazymatch goal with
        | _ : unowned p (delete h (handles s)) |- _ => fail
        | _ => pose proof (unowned_subseteq p _ _ (delete_mono _ _ h H) Hun)
        end
    end;
    eauto using single_owner_insert, single_owner_insert_null,
      single_owner_transfer, single_owner_delete, unowned_delete.
Qed.

Lemma exec_transfer_source o s σ σ' :
  exec destroy o σ = Some ((), σ') →
  transfer_source o = Some s →
  handles σ' !! s = Some None.
Proof.
  intros Hex Hs. destruct o; simpl in Hs; try done;
    try (case_decide; [|done]); simplify_eq; tunfold; minv;
    try by simplify_map_eq.
  all: match goal with
       | H : <[?a := None]> _ !! ?b = None |- _ =>
           assert (b ≠ a)
             by (intros Heq; by rewrite Heq, lookup_insert_eq in H)
       end; by simplify_map_eq.
Qed.

Lemma exec_self_assignment o σ σ' :
  exec destroy o σ = Some ((), σ') →
  self_assignment o → σ' = σ.
Proof.
  intros Hex Hself. destruct o; simpl in Hself; try done;
    unfold exec, operator_assign, operator_assign_U in Hex;
    rewrite decide_False in Hex by (by intros []); by minv.
Qed.

Lemma run_single_owner ops σ σ' :
  only_destroys destroy →
  single_owner (handles σ) → admissible_run destroy ops σ →
  run destroy ops σ = Some ((), σ') →
  single_owner (handles σ').
Proof.
  intros Hd. revert σ. induction ops as [|o ops IH]; intros σ Hso Hadm Hrun.
  { by apply ret_Some in Hrun as [= <-]. }
  apply run_cons in Hrun as (σ1 & Hex & Hrun).
  destruct Hadm as [Ho Hrest]. rewrite Hex in Hrest.
  eapply IH; [|done..]. by eapply exec_single_owner.
Qed.

(** C2: let the destructor of the element type create no handle and
    change no handle's pointer (it may destroy handles). Take a sequence
    of member calls and one more call, each handing a handle only raw
    pointers and proxies that are null or point to an instance that no
    handle (for reset and assignment from a proxy: no other handle)
    owns, and let all of them be defined. If at most one handle owns a
    given instance at the start, this is so before and after the last
    call; if that call transfers from a handle to another handle or to a
    proxy (copy construction, assignment from a different handle,
    conversion), its source is null afterwards; and if it assigns a
    handle to itself, the whole store is as it was before the call. *)
Theorem C2_single_owner_invariant ops o σ σ1 σ' :
  only_destroys destroy →
  single_owner (handles σ) →
  admissible_run destroy ops σ →
  run destroy ops σ = Some ((), σ1) →
  admissible o σ1 →
  exec destroy o σ1 = Some ((), σ') →
  single_owner (handles σ1) ∧
  single_owner (handles σ') ∧
  (∀ s, transfer_source o = Some s → handles σ' !! s = Some None) ∧
  (self_assignment o → σ' = σ1).
Proof.
  intros Hd Hso Hadm Hrun Ho Hex.
  pose proof (run_single_owner ops σ σ1 Hd Hso Hadm Hrun) as Hso1.
  split; [done|]. split; [by eapply exec_single_owner|].
  split; [intros s; by apply (exec_transfer_source o s σ1)|].
  by apply (exec_self_assignment o σ1).
Qed.

(** Running members forward on a store whose lookups are known, with
    what the destructor does taken from the facts at hand. *)
Ltac tforward :=
  unfold operator_assign, operator_assign_U, operator_assign_ref, dtor,
    reset, delete_, deallocate, AutoPtr.operator_auto_ptr_ref,
    AutoPtr.operator_auto_ptr, AutoPtr.auto_ptr_copy,
    AutoPtr.auto_ptr_copy_U, AutoPtr.auto_ptr_from_ref,
    AutoPtr.auto_ptr_ctor, AutoPtr.get, AutoPtr.operator_arrow,
    AutoPtr.operator_deref, AutoPtr.release, lvalue, undefined;
  unfold mbind, M_bind, mret, M_ret, load, store, begin_lifetime,
    end_lifetime;
  repeat first
    [ progress simpl
    | match goal with
      | H : destroy _ _ = Some _ |- _ => rewrite H
      | H : inert destroy |- _ => rewrite (H _ _)
      end
    | rewrite decide_True by (done || congruence)
    | rewrite decide_False
        by (done || congruence
            || apply AutoPtrMore.deallocated_not_allocated)
    | match goal with
      | H : handles _ !! _ = _ |- _ => rewrite H
      end
    | rewrite lookup_insert_eq
    | rewrite lookup_insert_ne by (done || congruence)
    | rewrite lookup_delete_ne by (done || congruence) ].

(** C4: whatever the destructor of the element type does, assigning a
    handle to itself, and assigning to a handle a proxy that carries the
    pointer the handle already holds, return the handle and leave the
    whole store as it was: same owned pointer, same heap, nothing added
    to the deallocation log. *)
Theorem C4_self_assignment_is_noop {T : cls}
    (b : auto_ptr T) (σ : state) (p : ptr) :
  handles σ !! addr b = Some p →
  operator_assign destroy b b σ = Some (b, σ) ∧
  operator_assign_ref destroy b (AutoPtrRef T p) σ = Some (b, σ).
Proof.
  intros Hb. split; tforward; reflexivity.
Qed.

(** C10: whatever the destructor of the element type does, on a handle
    whose pointer is null the destructor of the handle, reset with any
    pointer, assignment from any other live handle and assignment from
    any proxy all succeed and deallocate nothing: heap and deallocation
    log are unchanged. So constructing a handle with the default null
    pointer and destroying it gives back the store one started from. *)
Theorem C10_null_handle_deallocates_nothing {T : cls}
    (h : auto_ptr T) (σ : state) :
  handles σ !! addr h = Some None →
  (∃ σ', dtor destroy h σ = Some ((), σ') ∧ same_heap σ σ') ∧
  (∀ q, ∃ σ', reset destroy h q σ = Some ((), σ') ∧ same_heap σ σ') ∧
  (∀ (a : auto_ptr T), is_Some (handles σ !! addr a) →
     ∃ σ', operator_assign destroy h a σ = Some (h, σ') ∧ same_heap σ σ') ∧
  (∀ ref, ∃ σ', operator_assign_ref destroy h ref σ = Some (h, σ') ∧
                same_heap σ σ') ∧
  (∀ (fresh : auto_ptr T), handles σ !! addr fresh = None →
     (auto_ptr_ctor fresh None;; dtor destroy fresh) σ = Some ((), σ)).
Proof.
  intros Hh. unfold same_heap. repeat split.
  - eexists. split; [tforward; reflexivity | done].
  - intros q. unfold reset.
    destruct (decide (q = None)) as [->|Hq];
      (eexists; split; [tforward; reflexivity | done]).
  - intros a [pa Ha]. unfold operator_assign.
    destruct (decide (addr h = addr a)) as [Heq|Hne];
      (eexists; split; [tforward; reflexivity | done]).
  - intros ref. unfold operator_assign_ref.
    destruct (decide (ref_ptr_ ref = None)) as [Heq|Hne];
      (eexists; split; [tforward; reflexivity | done]).
  - intros fresh Hf. tforward. destruct σ as [hp hs fr]; simpl in *.
    by rewrite delete_insert_id.
Qed.


(** X20: when the destructor of the instance the target owns ends the
    lifetime of the source handle (the source is a member of that
    instance, as in head = head->next), assignment from the source is
    undefined: line 57 deletes before line 58 releases. *)
Theorem assign_from_destroyed_source_is_undefined {T : cls}
    (this other : auto_ptr T) (σ : state) (old : loc) :
  addr this ≠ addr other →
  handles σ !! addr this = Some (Some old) →
  (∀ u σ1, destroy old σ = Some (u, σ1) → handles σ1 !! addr other = None) →
  operator_assign destroy this other σ = None.
Proof.
  intros Hne Hthis Hgone.
  destruct (operator_assign destroy this other σ) as [r|] eqn:Hrun; [|done].
  exfalso. unfold operator_assign in Hrun.
  rewrite decide_True in Hrun by done. unfold AutoPtr.release in Hrun.
  minv.
  match goal with
  | H : _ σ = Some (_, ?s) |- _ =>
      apply (delete_Some_inv old σ) in H as (u & σ1 & _ & Hd & _ & [= _ ->])
  end.
  specialize (Hgone u σ1 Hd). simpl in *. congruence.
Qed.

(** With a destructor that leaves the store alone, [delete] is the one
    of [AutoPtr]. *)
Lemma inert_delete p σ :
  inert destroy → delete_ destroy p σ = AutoPtr.delete_ p σ.
Proof.
  intros Hinert. destruct p as [l|]; [|done].
  unfold delete_, AutoPtr.delete_, lvalue, deallocate, mbind, M_bind.
  case_decide; [|done]. rewrite (Hinert l σ). by rewrite decide_True.
Qed.

(** So are the members that call it: the members of [AutoPtr] are those
    of an element type whose destructor leaves the store alone. *)
Lemma inert_members {T : cls} (this : auto_ptr T) (ref : auto_ptr_ref T)
    (q : ptr) σ :
  inert destroy →
  dtor destroy this σ = AutoPtr.dtor this σ ∧
  reset destroy this q σ = AutoPtr.reset this q σ ∧
  operator_assign_ref destroy this ref σ = AutoPtr.operator_assign_ref this ref σ.
Proof.
  intros Hinert.
  unfold dtor, reset, operator_assign_ref, AutoPtr.dtor, AutoPtr.reset,
    AutoPtr.operator_assign_ref, mbind, M_bind, load.
  destruct (handles σ !! addr this) as [old|]; [|done].
  repeat split; repeat case_decide; by rewrite ?inert_delete.
Qed.

(** X19: for an element type whose destructor leaves the store alone,
    assignment through a proxy agrees with assignment from the handle
    itself whenever the two handles do not hold the same instance (the
    target holding null or an allocated instance): both return the
    target and leave the same store. *)
Theorem assign_through_proxy_agrees {T : cls} (conv : convertible T T)
    (this other : auto_ptr T) (σ : state) (old p : ptr) :
  inert destroy →
  handles σ !! addr this = Some old →
  handles σ !! addr other = Some p →
  live_or_null old σ →
  (addr this ≠ addr other → p = old → p = None) →
  (ref ← operator_auto_ptr_ref convertible T conv other;
   operator_assign_ref destroy this ref) σ = operator_assign destroy this other σ.
Proof.
  intros Hinert Hthis Hother Hlive Hshare.
  destruct (decide (addr this = addr other)) as [Heq|Hne].
  - assert (this = other) as <-
      by (destruct this, other; simpl in *; congruence).
    unfold operator_assign. destruct old as [l|]; tforward.
    + rewrite insert_insert_eq, insert_id by done.
      by rewrite AutoPtrMore.state_eta.
    + rewrite insert_id by done. by rewrite AutoPtrMore.state_eta.
  - specialize (Hshare Hne). unfold operator_assign.
    destruct old as [l|], p as [l'|]; simpl in Hlive; tforward; try done.
    + destruct (decide (l' = l)) as [->|]; [by specialize (Hshare eq_refl)|].
      by tforward.
    + by rewrite (insert_id (<[addr other:=None]> (handles σ))
                    (addr this) None)
        by (by simplify_map_eq).
Qed.

(** *** Clients that keep the contract *)

Lemma precondition_admissible o σ : precondition o σ → admissible o σ.
Proof. destruct o; simpl; tauto. Qed.

(** The handles [hs'] hold allocated instances once the instance [l]
    that [h] held is deallocated, if they hold nothing but what other
    handles held and allocated instances different from [l]. *)
Lemma owned_live_after_free h l σ hs' fr :
  well_formed σ → handles σ !! h = Some (Some l) →
  (∀ h' l', hs' !! h' = Some (Some l') →
     (h' ≠ h ∧ handles σ !! h' = Some (Some l')) ∨
     (l' ≠ l ∧ l' ∈ heap σ)) →
  owned_live (State (heap σ ∖ {[l]}) hs' fr).
Proof.
  intros [Hso Hlive] Hh Hsub h' l' Hl'. simpl in *.
  apply elem_of_difference. rewrite elem_of_singleton.
  destruct (Hsub h' l' Hl') as [[Hne Hold]|[Hne Hin]]; [|done].
  split; [by apply (Hlive h')|]. intros ->.
  by destruct Hne; apply (Hso h' h l).
Qed.

(** Which handle a lookup in an updated store is about. *)
Ltac which_handle h :=
  repeat match goal with
  | H : context [<[?k := _]> _ !! h] |- _ =>
      lazymatch k with
      | h => fail
      | _ => destruct (decide (h = k)) as [->|]; simplify_map_eq
      end
  | H : context [delete ?k _ !! h] |- _ =>
      lazymatch k with
      | h => fail
      | _ => destruct (decide (h = k)) as [->|]; simplify_map_eq
      end
  end; simplify_map_eq.

(** One call made with its precondition in a well-formed store is
    defined, and the handles still hold allocated instances. *)
Lemma exec_defined o σ :
  inert destroy →
  well_formed σ → precondition o σ →
  ∃ σ', exec destroy o σ = Some ((), σ') ∧ owned_live σ'.
Proof.
  intros Hinert Hwf Hpre. pose proof Hwf as [Hso Hlive].
  destruct o; try destruct ref as [ptr]; simpl in Hpre;
    unfold constructed, unconstructed, holds_instance in Hpre; simpl exec;
    repeat match goal with
    | H : _ ∧ _ |- _ => destruct H
    | H : is_Some _ |- _ => destruct H as [[?l0|] ?]
    | H : match handles σ !! ?h with Some _ => _ | None => _ end |- _ =>
        destruct (handles σ !! h) as [[?l0|]|] eqn:?; [|done..]
    | H : handles σ !! ?h = Some (Some ?l) |- _ =>
        lazymatch goal with
        | _ : l ∈ heap σ |- _ => fail
        | _ => assert (l ∈ heap σ) by (by apply (Hlive h))
        end
    | H : handles σ !! ?a = None, H' : handles σ !! ?b = Some _ |- _ =>
        lazymatch goal with
        | _ : a ≠ b |- _ => fail
        | _ => assert (a ≠ b) by congruence
        end
    end;
    unfold operator_assign, operator_assign_U, operator_assign_ref, reset;
    repeat match goal with
    | |- context [decide ?P] => destruct (decide P)
    end;
    try match goal with
    | H : handles σ !! addr ?this = Some ?old,
      _ : unowned ?p (delete (addr ?this) _) |- _ =>
        destruct (decide (p ≠ old))
    end;
    (eexists; split; [by tforward|]); try done;
    try match goal with
    | Hthis : handles σ !! ?this = Some (Some ?l0)
      |- owned_live (State (heap σ ∖ {[?l0]}) _ _) =>
        apply (owned_live_after_free this l0 σ); [done..|];
        intros h l Hl
    | |- owned_live _ => intros h l Hl; simpl in *
    end;
    try (which_handle h);
    try first
      [ done
      | by eapply Hlive
      | left; by split
      | right; split; [|done || by eapply Hlive];
        intros ->;
        first [ congruence
              | match goal with
                | Hne : ?a ≠ ?b |- _ => destruct Hne; by eapply Hso
                end ] ].
Qed.

(** X17: memory safety of the contract, for an element type whose
    destructor leaves the store alone. From a store in which no
    instance has two owners and every handle holds an allocated instance
    or null, a sequence of member calls each made with its precondition
    is defined (no instance is deleted twice, no deleted instance is
    deleted or kept, operator* finds an instance) and ends in such a
    store again. *)
Theorem contract_run_is_defined ops σ :
  inert destroy →
  well_formed σ →
  contract_run destroy ops σ →
  ∃ σ', run destroy ops σ = Some ((), σ') ∧ well_formed σ'.
Proof.
  intros Hinert. revert σ. induction ops as [|o ops IH]; intros σ Hwf Hrun.
  - by exists σ.
  - destruct Hrun as [Hpre Hrest].
    destruct (exec_defined o σ Hinert Hwf Hpre) as (σ1 & Hex & Hlive1).
    rewrite Hex in Hrest.
    assert (Hwf1 : well_formed σ1).
    { split; [|done].
      eapply exec_single_owner; [|apply Hwf| |done].
      - intros l s u s' Hd. rewrite (Hinert l s) in Hd. by injection Hd as _ <-.
      - by apply precondition_admissible. }
    destruct (IH σ1 Hwf1 Hrest) as (σ' & Hrun' & Hwf').
    exists σ'. split; [|done]. apply run_cons. by exists σ1.
Qed.

Lemma dtor_only_destroys {T : cls} (this : auto_ptr T) σ u σ' :
  only_destroys destroy →
  dtor destroy this σ = Some (u, σ') → handles σ' ⊆ handles σ.
Proof.
  intros Hd Hrun. unfold dtor in Hrun. minv.
  match goal with
  | H : delete_ destroy _ _ = Some (_, ?s) |- _ =>
      apply (delete_handles_subseteq _ _ _ _ Hd) in H;
      etrans; [apply delete_subseteq | exact H]
  end.
Qed.

End ElementType.

(** At most one owner, as a check on the finitely many handles. *)
Lemma single_owner_check (hs : gmap hid ptr) :
  single_owner hs ↔
  map_Forall (λ h1 p1,
    map_Forall (λ h2 p2, p1 = p2 → p1 ≠ None → h1 = h2) hs) hs.
Proof.
  split.
  - intros Hso h1 p1 H1 h2 p2 H2 <- Hp. destruct p1 as [l|]; [|done].
    by apply (Hso h1 h2 l).
  - intros Hall h1 h2 l H1 H2. by apply (Hall h1 _ H1 h2 _ H2).
Qed.

Import Client Scenarios Lists.

Lemma no_members_inert : inert no_members.
Proof. done. Qed.

Lemma no_members_only_destroys : only_destroys no_members.
Proof. by intros l σ u σ' [= _ <-]. Qed.

Lemma node_dtor_only_destroys depth : only_destroys (node_dtor depth).
Proof.
  induction depth as [|depth IH]; intros l σ u σ' Hrun; [done|].
  by apply (dtor_only_destroys (node_dtor depth) (next l) σ u σ' IH).
Qed.

(** C2: the invariant is lost when two handles are constructed from one
    raw pointer, and a handle assigned to itself is not left null. *)
Lemma C2_shared_raw_pointer_and_self_assignment :
  single_owner (handles one_instance) ∧
  (∃ σ', run no_members shared_raw_pointer one_instance = Some ((), σ') ∧
         handles σ' !! addr a = Some (Some 10%positive) ∧
         handles σ' !! addr b = Some (Some 10%positive) ∧
         ¬ single_owner (handles σ')) ∧
  (∃ σ', run no_members self_assignment_of_a one_instance = Some ((), σ') ∧
         handles σ' !! addr a = Some (Some 10%positive)).
Proof.
  split; [apply single_owner_empty|]. split.
  - eexists. split; [by vm_compute|].
    split; [done|]. split; [done|].
    intros Hso.
    by specialize (Hso 1%positive 2%positive 10%positive eq_refl eq_refl).
  - eexists. split; [by vm_compute | done].
Qed.

(** [second = first], [*second], [first.reset()], [second->] and then
    [auto_ptr<Node> third(second)] on two lists of one node each. *)
Lemma C2_witness :
  run (node_dtor 2) splice two_lists = Some ((), spliced) ∧
  exec (node_dtor 2) (op_copy same_class third second) spliced
    = Some ((), handed_on) ∧
  single_owner (handles spliced) ∧
  single_owner (handles handed_on) ∧
  handles handed_on !! addr second = Some None.
Proof.
  assert (Hrun : run (node_dtor 2) splice two_lists = Some ((), spliced))
    by (vm_compute; reflexivity).
  assert (Hex : exec (node_dtor 2) (op_copy same_class third second) spliced
                = Some ((), handed_on)) by (vm_compute; reflexivity).
  destruct (C2_single_owner_invariant (node_dtor 2) splice
              (op_copy same_class third second) two_lists spliced handed_on)
    as (Hso1 & Hso2 & Hsrc & _);
    [apply node_dtor_only_destroys | apply single_owner_check; compute_done
    | compute_done | exact Hrun | exact I | exact Hex |].
  split; [exact Hrun|]. split; [exact Hex|]. split; [exact Hso1|].
  split; [exact Hso2|]. by apply Hsrc.
Defined.


(** [b = b], and [b] assigned a proxy for the instance 20 it owns. *)
Lemma C4_witness :
  operator_assign no_members b b a_and_b = Some (b, a_and_b) ∧
  operator_assign_ref no_members b (AutoPtrRef Base (Some 20%positive))
    a_and_b = Some (b, a_and_b).
Proof.
  apply (C4_self_assignment_is_noop no_members b a_and_b (Some 20%positive)).
  reflexivity.
Defined.

(** The destructor of the null handle [a]. *)
Lemma C10_witness :
  ∃ σ', dtor no_members a a_null = Some ((), σ') ∧ same_heap a_null σ'.
Proof.
  destruct (C10_null_handle_deallocates_nothing no_members a a_null)
    as [Hdtor _]; [reflexivity|].
  exact Hdtor.
Defined.


(** first->next = first->next->next on the list 10, 20, 30. *)
Lemma assign_from_destroyed_source_is_undefined_witness :
  operator_assign (node_dtor 3) (next 10) (next 20) chain = None.
Proof.
  apply (assign_from_destroyed_source_is_undefined (node_dtor 3)
           (next 10) (next 20) chain 20%positive); [done | reflexivity |].
  intros u σ1 Hd. vm_compute in Hd. by injection Hd as _ <-.
Defined.

Lemma assign_through_proxy_agrees_witness :
  (ref ← operator_auto_ptr_ref derives Base base_to_base a;
   operator_assign_ref no_members b ref) a_and_b
  = operator_assign no_members b a a_and_b.
Proof.
  apply (assign_through_proxy_agrees no_members base_to_base b a a_and_b
           (Some 20%positive) (Some 10%positive));
    [apply no_members_inert | reflexivity | reflexivity | compute_done
    | done].
Defined.

Lemma contract_run_is_defined_witness :
  ∃ σ', run no_members replace_and_destroy two_instances = Some ((), σ') ∧
        well_formed σ'.
Proof.
  apply (contract_run_is_defined no_members replace_and_destroy
           two_instances).
  - apply no_members_inert.
  - split; [apply single_owner_empty|]. intros h l Hl.
    unfold two_instances in Hl. simpl in Hl. by rewrite lookup_empty in Hl.
  - compute_done.
Defined.

End AutoPtrTFacts.
